(** * Packet replication entry translation (p4rt_app/sonic)

    A shallow embedding of [packet_replication_entry_translation.cc]: the
    translation of PDPI IR multicast group entries to AppDb key/field/value
    tuples, the reader that rebuilds the entries from the AppDb table, and
    the comparison of the AppDb entries with the P4RT cache.

    Strings are byte lists, [uint32_t] values are binary naturals, the output
    vectors the source appends to are threaded through explicitly, and
    [absl::StatusOr] is a sum type. *)

From Stdlib Require Import Ascii String List NArith ZArith Lia Bool.
From Stdlib Require Import Sorted Permutation.
Import ListNotations.

Local Open Scope N_scope.
Local Open Scope list_scope.

(** ** Strings *)

(** A [std::string] / [absl::string_view]: a sequence of 8-bit characters. *)
Definition str : Type := list ascii.

(** String literals of the source. *)
Definition lit (s : string) : str := list_ascii_of_string s.

(** [absl::StartsWith(text, prefix)]. *)
Fixpoint StartsWith (text prefix : str) : bool :=
  match prefix, text with
  | [], _ => true
  | _ :: _, [] => false
  | p :: prefix', t :: text' => Ascii.eqb t p && StartsWith text' prefix'
  end.

(** [s.rfind(c)] for a one-character needle: the highest position holding
    [c], [None] standing for [std::string::npos]. *)
Fixpoint rfind (c : ascii) (s : str) : option nat :=
  match s with
  | [] => None
  | a :: s' =>
      match rfind c s' with
      | Some i => Some (S i)
      | None => if Ascii.eqb a c then Some O else None
      end
  end.

(** [s.substr(pos, count)] and [s.substr(pos)], for [pos <= s.size()]. *)
Definition substr (s : str) (pos count : nat) : str := firstn count (skipn pos s).
Definition substr_from (s : str) (pos : nat) : str := skipn pos s.

(** ** Number formatting and parsing (absl/strings) *)

(** The lower-case digit table ["0123456789abcdef"] used by [absl::Hex] and
    by the decimal conversion of [absl::StrCat]. *)
Definition digit_char (d : N) : ascii :=
  ascii_of_N (if d <? 10 then 48 + d else 87 + d).

(** The loop [do { *--p = digit(n % base); n /= base; } while (n != 0)]:
    digits are produced from the least significant one, each in front of the
    ones already written.  [fuel] bounds the number of iterations. *)
Fixpoint digits_loop (base : N) (fuel : nat) (n : N) (acc : str) : str :=
  match fuel with
  | O => acc
  | S fuel' =>
      let acc' := digit_char (n mod base) :: acc in
      if n / base =? 0 then acc' else digits_loop base fuel' (n / base) acc'
  end.

(** A number below [2^(log2 n + 1)] has at most [log2 n + 1] digits in any
    base from 2 on, so this fuel never runs out (see [digits_loop_spec]). *)
Definition digits (base n : N) : str :=
  digits_loop base (S (N.to_nat (N.log2 n))) n [].

(** [absl::StrCat(n)] for an unsigned integer: decimal, no padding. *)
Definition Dec (n : N) : str := digits 10 n.

(** [absl::StrCat(absl::Hex(n))]: lower-case hexadecimal, no padding, no
    ["0x"]. *)
Definition Hex (n : N) : str := digits 16 n.

(** [absl::StrCat(z)] for a signed integer (an enum streamed as [int]). *)
Definition DecZ (z : Z) : str :=
  if (z <? 0)%Z then "-"%char :: Dec (Z.abs_N z) else Dec (Z.to_N z).

(** [absl::ascii_isspace]. *)
Definition ascii_isspace (c : ascii) : bool :=
  let n := N_of_ascii c in
  (n =? 32) || ((9 <=? n) && (n <=? 13)).

(** The table [kAsciiToInt] of absl/strings/numbers.cc: the value of a
    digit or letter, 36 for every other character. *)
Definition kAsciiToInt (c : ascii) : N :=
  let n := N_of_ascii c in
  if (48 <=? n) && (n <=? 57) then n - 48
  else if (97 <=? n) && (n <=? 122) then n - 87
  else if (65 <=? n) && (n <=? 90) then n - 55
  else 36.

Fixpoint drop_space (s : str) : str :=
  match s with
  | c :: s' => if ascii_isspace c then drop_space s' else s
  | [] => []
  end.

(** The base-dependent prefix of [safe_parse_sign_and_base] for
    [base == 16]: one ["0x"] or ["0X"] is consumed, and must not be the end
    of the text. *)
Definition consume_hex_prefix (text : str) : option str :=
  match text with
  | c0 :: c1 :: body =>
      if Ascii.eqb c0 "0" && (Ascii.eqb c1 "x" || Ascii.eqb c1 "X")
      then match body with
           | [] => None
           | _ :: _ => Some body
           end
      else Some text
  | _ => Some text
  end.

(** [safe_parse_sign_and_base] for [base == 16]: surrounding white space is
    dropped, one sign is consumed, then the prefix; the text must not end
    before the digits.  Returns the digits and whether the sign was ['-']. *)
Definition safe_parse_sign_and_base16 (text : str) : option (str * bool) :=
  match rev (drop_space (rev (drop_space text))) with
  | [] => None
  | c :: rest =>
      let negative := Ascii.eqb c "-" in
      match (if negative || Ascii.eqb c "+" then rest else c :: rest) with
      | [] => None
      | start =>
          match consume_hex_prefix start with
          | Some body => Some (body, negative)
          | None => None
          end
      end
  end.

(** [safe_parse_positive_int]: accumulate the digits from the left, failing
    on a character that is not a digit of the base and on overflow of
    [vmax]. *)
Fixpoint safe_parse_positive_int (vmax base : N) (text : str) (value : N)
  : option N :=
  match text with
  | [] => Some value
  | c :: text' =>
      let digit := kAsciiToInt c in
      if base <=? digit then None
      else if vmax / base <? value then None
      else let value' := value * base in
           if vmax - digit <? value' then None
           else safe_parse_positive_int vmax base text' (value' + digit)
  end.

Definition uint32_max : N := 4294967295.

(** [absl::SimpleHexAtoi(text, &out)] for [uint32_t out]: [Some out] when it
    returns true. *)
Definition SimpleHexAtoi (text : str) : option N :=
  match safe_parse_sign_and_base16 text with
  | Some (body, false) => safe_parse_positive_int uint32_max 16 body 0
  | _ => None
  end.

(** ** Ordered containers *)

(** [std::string::operator<]: lexicographic on unsigned characters, a proper
    prefix first. *)
Fixpoint str_less (a b : str) : bool :=
  match a, b with
  | _, [] => false
  | [], _ :: _ => true
  | x :: a', y :: b' =>
      if N_of_ascii x <? N_of_ascii y then true
      else if N_of_ascii y <? N_of_ascii x then false
      else str_less a' b'
  end.

Section BTree.
Context {K : Type} (less : K -> K -> bool).

(** An [absl::btree_set<K>] is the list of its elements in iteration
    order; [insert] leaves the set alone when an equivalent element is
    there. *)
Fixpoint set_insert (x : K) (s : list K) : list K :=
  match s with
  | [] => [x]
  | y :: s' =>
      if less x y then x :: s
      else if less y x then y :: set_insert x s'
      else s
  end.

(** [std::set_difference(a.begin(), a.end(), b.begin(), b.end(), out)]:
    one pass over both sorted ranges. *)
Fixpoint set_difference (a b : list K) : list K :=
  match a with
  | [] => []
  | x :: a' =>
      (fix walk (b : list K) : list K :=
         match b with
         | [] => a
         | y :: b' =>
             if less x y then x :: set_difference a' b
             else if less y x then walk b'
             else set_difference a' b'
         end) b
  end.

Context {V : Type}.

(** An [absl::btree_map<K, V>] is the list of its pairs in iteration
    order.  [map_assign k v m] is [m[k] = v]. *)
Fixpoint map_assign (k : K) (v : V) (m : list (K * V)) : list (K * V) :=
  match m with
  | [] => [(k, v)]
  | (k', v') :: m' =>
      if less k k' then (k, v) :: m
      else if less k' k then (k', v') :: map_assign k v m'
      else (k, v) :: m'
  end.

(** [m.find(k)]: [None] for [m.end()]. *)
Fixpoint map_find (k : K) (m : list (K * V)) : option V :=
  match m with
  | [] => None
  | (k', v') :: m' =>
      if less k k' || less k' k then map_find k m' else Some v'
  end.
End BTree.

(** ** Data model *)

(** [pdpi::IrReplica]. *)
Record IrReplica := {
  port : str;
  instance : N
}.

(** [pdpi::IrMulticastGroupEntry]. *)
Record IrMulticastGroupEntry := {
  multicast_group_id : N;
  replicas : list IrReplica
}.

(** [pdpi::IrPacketReplicationEngineEntry]. *)
Record IrPacketReplicationEngineEntry := {
  multicast_group_entry : IrMulticastGroupEntry
}.

(** [pdpi::IrEntity], as far as this file reads it. *)
Record IrEntity := {
  packet_replication_engine_entry : IrPacketReplicationEngineEntry
}.

(** [swss::KeyOpFieldsValuesTuple]. *)
Record KeyOpFieldsValuesTuple := {
  kfvKey : str;
  kfvOp : str;
  kfvFieldsValues : list (str * str)
}.

(** The read interface of the AppDb table ([p4rt_table.app_db]). *)
Record TableAdapter := {
  keys : list str;
  get : str -> list (str * str)
}.

Record P4rtTable := {
  app_db : TableAdapter
}.

(** [p4::v1::Update::Type], an open enum carried as an [int]. *)
Definition Update_Type : Type := Z.
Definition UNSPECIFIED : Update_Type := 0%Z.
Definition INSERT : Update_Type := 1%Z.
Definition MODIFY : Update_Type := 2%Z.
Definition DELETE : Update_Type := 3%Z.

(** ** Status *)

Inductive StatusCode :=
| kOk | kCancelled | kUnknown | kInvalidArgument | kDeadlineExceeded
| kNotFound | kAlreadyExists | kPermissionDenied | kResourceExhausted
| kFailedPrecondition | kAborted | kOutOfRange | kUnimplemented | kInternal
| kUnavailable | kDataLoss | kUnauthenticated.

Record Status := {
  code : StatusCode;
  message : str
}.

(** [absl::StatusOr<A>]. *)
Inductive StatusOr (A : Type) :=
| Ok (a : A)
| Err (s : Status).
Arguments Ok {A} a.
Arguments Err {A} s.

(** [gutil::InvalidArgumentErrorBuilder() << ...]. *)
Definition InvalidArgumentError {A : Type} (msg : str) : StatusOr A :=
  Err {| code := kInvalidArgument; message := msg |}.

(** [ASSIGN_OR_RETURN(x, e); k]. *)
Definition bind {A B : Type} (e : StatusOr A) (k : A -> StatusOr B)
  : StatusOr B :=
  match e with
  | Ok a => k a
  | Err s => Err s
  end.

Notation "'ASSIGN_OR_RETURN' x <- e ;; k" :=
  (bind e (fun x => k))
  (at level 61, x name, e at next level, right associativity).

(** ** The translation unit *)

Section PacketReplicationEntryTranslation.

(** The table name macro of swss/schema.h; its value is not part of this
    translation unit. *)
Variable APP_P4RT_REPLICATION_IP_MULTICAST_TABLE_NAME : str.

(** The key body of a multicast group entry, declared in
    app_db_to_pdpi_ir_translator.h. *)
Variable IrMulticastGroupEntryToAppDbKey : IrMulticastGroupEntry -> str.

Definition TablePrefix : str :=
  APP_P4RT_REPLICATION_IP_MULTICAST_TABLE_NAME ++ lit ":".

Definition StripTableName (app_db_key : str) : StatusOr str :=
  let kTablePrefix := TablePrefix in
  if negb (StartsWith app_db_key kTablePrefix) then
    InvalidArgumentError
      (lit "Invalid packet replication App DB key " ++ app_db_key)
  else Ok (substr_from app_db_key (length kTablePrefix)).

(** The final AppDb key format is: <table_name>:<multicast_group_id>. *)
Definition GetRedisPacketReplicationTableKey
    (entry : IrPacketReplicationEngineEntry) : str :=
  TablePrefix ++ IrMulticastGroupEntryToAppDbKey (multicast_group_entry entry).

(** The field name of one replica, [port_instance] in the loop of
    [CreateEntryForInsert]. *)
Definition port_instance (r : IrReplica) : str :=
  port r ++ lit ":0x" ++ Hex (instance r).

(** Returns the key; the second component is [p4rt_inserts] after the
    call. *)
Definition CreateEntryForInsert (entry : IrPacketReplicationEngineEntry)
    (p4rt_inserts : list KeyOpFieldsValuesTuple)
  : str * list KeyOpFieldsValuesTuple :=
  let key := GetRedisPacketReplicationTableKey entry in
  let fields_values :=
    fold_left
      (fun fvs r => fvs ++ [(port_instance r, lit "replica")])
      (replicas (multicast_group_entry entry)) [] in
  let key_value :=
    {| kfvKey := key; kfvOp := lit "SET"; kfvFieldsValues := fields_values |} in
  (key, p4rt_inserts ++ [key_value]).

Definition CreateEntryForDelete (entry : IrPacketReplicationEngineEntry)
    (p4rt_deletes : list KeyOpFieldsValuesTuple)
  : str * list KeyOpFieldsValuesTuple :=
  let key := GetRedisPacketReplicationTableKey entry in
  let key_value :=
    {| kfvKey := key; kfvOp := lit "DEL"; kfvFieldsValues := [] |} in
  (key, p4rt_deletes ++ [key_value]).

(** The string [pi] that [ComparePacketReplicationEntities] inserts for a
    replica: port, ["_"], decimal instance. *)
Definition pi (replica : IrReplica) : str :=
  port replica ++ lit "_" ++ Dec (instance replica).

(** The [btree_set] filled by one of its two loops over the replicas. *)
Definition port_instance_set (rs : list IrReplica) : list str :=
  fold_left (fun s replica => set_insert str_less (pi replica) s) rs [].

(** Returns [failures] after the call. *)
Definition ComparePacketReplicationEntities
    (entity_app_db entity_cache : IrEntity) (failures : list str)
  : list str :=
  let group_entry_app_db :=
    multicast_group_entry (packet_replication_engine_entry entity_app_db) in
  let group_entry_cache :=
    multicast_group_entry (packet_replication_engine_entry entity_cache) in
  let port_instance_app_db :=
    port_instance_set (replicas group_entry_app_db) in
  let port_instance_cache :=
    port_instance_set (replicas group_entry_cache) in
  (* Check difference between App DB and the cache. *)
  let differences :=
    set_difference str_less port_instance_app_db port_instance_cache in
  let failures :=
    fold_left
      (fun failures difference =>
         failures ++
         [lit "Packet replication cache is missing replica " ++ difference
          ++ lit " for group id "
          ++ Dec (multicast_group_id group_entry_app_db)])
      differences failures in
  (* Check difference between cache and App DB. *)
  let differences :=
    set_difference str_less port_instance_cache port_instance_app_db in
  fold_left
    (fun failures difference =>
       failures ++
       [lit "APP DB is missing replica " ++ difference
        ++ lit " for group id "
        ++ Dec (multicast_group_id group_entry_app_db)])
    differences failures.

(** Returns the status and [kfv_updates] after the call.  The table is
    not read. *)
Definition CreatePacketReplicationTableUpdateForAppDb
    (p4rt_table : P4rtTable) (update_type : Update_Type)
    (entry : IrPacketReplicationEngineEntry)
    (kfv_updates : list KeyOpFieldsValuesTuple)
  : StatusOr str * list KeyOpFieldsValuesTuple :=
  if ((update_type =? INSERT) || (update_type =? MODIFY))%Z then
    (* Modify looks exactly the same as insert. *)
    let '(update_key, kfv_updates) := CreateEntryForInsert entry kfv_updates in
    (Ok update_key, kfv_updates)
  else if (update_type =? DELETE)%Z then
    let '(update_key, kfv_updates) := CreateEntryForDelete entry kfv_updates in
    (Ok update_key, kfv_updates)
  else
    (InvalidArgumentError (lit "Unsupported update type: " ++ DecZ update_type),
     kfv_updates).

Definition GetAllPacketReplicationTableEntryKeys (p4rt_table : P4rtTable)
  : list str :=
  fold_left
    (fun pre_keys key =>
       if StartsWith key TablePrefix then pre_keys ++ [key] else pre_keys)
    (keys (app_db p4rt_table)) [].

(** One round of the replica loop of
    [GetAllAppDbPacketReplicationTableEntries], on the field name
    [kfv.first]. *)
Definition ParseReplica (field : str) : StatusOr IrReplica :=
  match rfind ":" field with
  | None =>
      InvalidArgumentError
        (lit "Unexpected multicast port/instance format '" ++ field
         ++ lit "' for APP DB packet replication")
  | Some value_split =>
      let port := substr field 0 value_split in
      let instance_str := substr_from field (value_split + 1) in
      match SimpleHexAtoi instance_str with
      | None =>
          InvalidArgumentError
            (lit "Unexpected replica instance value '" ++ instance_str
             ++ lit "' for APP DB packet replication")
      | Some instance => Ok {| port := port; instance := instance |}
      end
  end.

(** The replica loop: [replicas] is the repeated field built so far. *)
Fixpoint BuildReplicas (kfvs : list (str * str)) (replicas : list IrReplica)
  : StatusOr (list IrReplica) :=
  match kfvs with
  | [] => Ok replicas
  | kfv :: kfvs' =>
      ASSIGN_OR_RETURN replica <- ParseReplica (fst kfv) ;;
      (* We ignore the value in the kfv, as it is not used. *)
      BuildReplicas kfvs' (replicas ++ [replica])
  end.

(** The key loop: [pre_entries] is the vector built so far. *)
Fixpoint ReadEntries (p4rt_table : P4rtTable) (keys : list str)
    (pre_entries : list IrPacketReplicationEngineEntry)
  : StatusOr (list IrPacketReplicationEngineEntry) :=
  match keys with
  | [] => Ok pre_entries
  | key :: keys' =>
      ASSIGN_OR_RETURN multicast_group_id <- StripTableName key ;;
      match SimpleHexAtoi multicast_group_id with
      | None =>
          InvalidArgumentError
            (lit "Failed to parse multicast_group_id from App DB packet "
             ++ lit "replication entry key '" ++ key)
      | Some group_id =>
          ASSIGN_OR_RETURN replicas <-
            BuildReplicas (get (app_db p4rt_table) key) [] ;;
          let pre_entry :=
            {| multicast_group_entry :=
                 {| multicast_group_id := group_id;
                    replicas := replicas |} |} in
          ReadEntries p4rt_table keys' (pre_entries ++ [pre_entry])
      end
  end.

Definition GetAllAppDbPacketReplicationTableEntries (p4rt_table : P4rtTable)
  : StatusOr (list IrPacketReplicationEngineEntry) :=
  (* Each key corresponds to a single multicast group, with all its
     replicas. *)
  let keys := GetAllPacketReplicationTableEntryKeys p4rt_table in
  ReadEntries p4rt_table keys [].

Definition group_id_of (entry : IrEntity) : N :=
  multicast_group_id
    (multicast_group_entry (packet_replication_engine_entry entry)).

(** Multicast group ID -> IrEntity: the map filled by the first two loops
    of [ComparePacketReplicationTableEntries]. *)
Definition GroupMap (entries : list IrEntity) : list (N * IrEntity) :=
  fold_left
    (fun m entry => map_assign N.ltb (group_id_of entry) entry m)
    entries [].

Definition ComparePacketReplicationTableEntries
    (entries_app_db entries_cache : list IrEntity) : list str :=
  let failures := [] in
  let map_app_db := GroupMap entries_app_db in
  let map_cache := GroupMap entries_cache in
  let failures :=
    fold_left
      (fun failures id_and_entry =>
         match map_find N.ltb (fst id_and_entry) map_cache with
         | None =>
             failures ++
             [lit "Packet replication cache is missing multicast group "
              ++ lit "ID " ++ Dec (fst id_and_entry)]
         | Some entry_cache =>
             ComparePacketReplicationEntities
               (snd id_and_entry) entry_cache failures
         end)
      map_app_db failures in
  fold_left
    (fun failures id_and_entry =>
       match map_find N.ltb (fst id_and_entry) map_app_db with
       | None =>
           failures ++
           [lit "APP DB is missing multicast group ID "
            ++ Dec (fst id_and_entry)]
       | Some _ => failures
       end)
    map_cache failures.

End PacketReplicationEntryTranslation.

(** * Specification vocabulary *)

(** The characters [0-9a-f]. *)
Definition is_hex_lower (c : ascii) : bool :=
  let n := N_of_ascii c in
  ((48 <=? n) && (n <=? 57)) || ((97 <=? n) && (n <=? 102)).

(** The value of a digit string read from the left, starting from [v]. *)
Definition digits_value (base : N) (ds : str) (v : N) : N :=
  fold_left (fun v c => v * base + kAsciiToInt c) ds v.

(** A digit of [base] from the lower-case table. *)
Definition digit_ok (base : N) (c : ascii) : Prop :=
  is_hex_lower c = true /\ kAsciiToInt c < base.

(** The laws of the comparison of an ordered container. *)
Class StrictTotalOrder {K : Type} (less : K -> K -> bool) : Prop := {
  less_irrefl : forall x, less x x = false;
  less_trans :
    forall x y z, less x y = true -> less y z = true -> less x z = true;
  less_total : forall x y, less x y = false -> less y x = false -> x = y
}.

(** Two keys are equivalent when neither is below the other. *)
Definition equiv_key {K : Type} (less : K -> K -> bool) (x y : K) : bool :=
  negb (less x y || less y x).

(** Membership by key equivalence. *)
Definition mem_key {K : Type} (less : K -> K -> bool) (x : K) (s : list K)
  : bool :=
  existsb (equiv_key less x) s.

(** Strictly increasing lists: the representation invariant of the ordered
    containers. *)
Definition increasing {K : Type} (less : K -> K -> bool) (s : list K) : Prop :=
  StronglySorted (fun x y => less x y = true) s.

(** The four failure messages of the comparison. *)
Definition cache_missing_replica (difference : str) (group_id : N) : str :=
  lit "Packet replication cache is missing replica " ++ difference
  ++ lit " for group id " ++ Dec group_id.

Definition app_db_missing_replica (difference : str) (group_id : N) : str :=
  lit "APP DB is missing replica " ++ difference
  ++ lit " for group id " ++ Dec group_id.

Definition cache_missing_group (group_id : N) : str :=
  lit "Packet replication cache is missing multicast group ID "
  ++ Dec group_id.

Definition app_db_missing_group (group_id : N) : str :=
  lit "APP DB is missing multicast group ID " ++ Dec group_id.

(** A failure, before it is written out as one of the four messages. *)
Inductive Failure :=
| CacheMissingGroup (group_id : N)
| CacheMissingReplica (difference : str) (group_id : N)
| AppDbMissingReplica (difference : str) (group_id : N)
| AppDbMissingGroup (group_id : N).

Definition render (f : Failure) : str :=
  match f with
  | CacheMissingGroup g => cache_missing_group g
  | CacheMissingReplica d g => cache_missing_replica d g
  | AppDbMissingReplica d g => app_db_missing_replica d g
  | AppDbMissingGroup g => app_db_missing_group g
  end.

Definition failure_group (f : Failure) : N :=
  match f with
  | CacheMissingGroup g | CacheMissingReplica _ g
  | AppDbMissingReplica _ g | AppDbMissingGroup g => g
  end.

(** The same fact seen with the roles of App DB and cache exchanged. *)
Definition exchange (f : Failure) : Failure :=
  match f with
  | CacheMissingGroup g => AppDbMissingGroup g
  | CacheMissingReplica d g => AppDbMissingReplica d g
  | AppDbMissingReplica d g => CacheMissingReplica d g
  | AppDbMissingGroup g => CacheMissingGroup g
  end.

(** [exchange] on the messages themselves: the subject of "is missing" is
    replaced by the other one. *)
Definition exchange_message (s : str) : str :=
  let cache := lit "Packet replication cache is missing " in
  let app_db := lit "APP DB is missing " in
  if StartsWith s cache then app_db ++ substr_from s (length cache)
  else if StartsWith s app_db then cache ++ substr_from s (length app_db)
  else s.

(** The comparison strings of the replicas of an entity. *)
Definition replica_strings (entity : IrEntity) : list str :=
  port_instance_set
    (replicas (multicast_group_entry (packet_replication_engine_entry entity))).

(** The failures of one pair of entities with the same group id. *)
Definition entity_failures (entity_app_db entity_cache : IrEntity)
  : list Failure :=
  let g := group_id_of entity_app_db in
  map (fun d => CacheMissingReplica d g)
      (set_difference str_less
         (replica_strings entity_app_db) (replica_strings entity_cache))
  ++ map (fun d => AppDbMissingReplica d g)
       (set_difference str_less
          (replica_strings entity_cache) (replica_strings entity_app_db)).

(** The failures of the first loop over [map_app_db] at one of its pairs. *)
Definition app_db_side_failures (map_cache : list (N * IrEntity))
    (id_and_entry : N * IrEntity) : list Failure :=
  match map_find N.ltb (fst id_and_entry) map_cache with
  | None => [CacheMissingGroup (fst id_and_entry)]
  | Some entry_cache => entity_failures (snd id_and_entry) entry_cache
  end.

(** The failures of the second loop over [map_cache] at one of its pairs. *)
Definition cache_side_failures (map_app_db : list (N * IrEntity))
    (id_and_entry : N * IrEntity) : list Failure :=
  match map_find N.ltb (fst id_and_entry) map_app_db with
  | None => [AppDbMissingGroup (fst id_and_entry)]
  | Some _ => []
  end.

(** All failures of two vectors of entities, in the order of the source. *)
Definition table_failures (entries_app_db entries_cache : list IrEntity)
  : list Failure :=
  flat_map (app_db_side_failures (GroupMap entries_cache))
    (GroupMap entries_app_db)
  ++ flat_map (cache_side_failures (GroupMap entries_app_db))
       (GroupMap entries_cache).

(** What the comparison is to report, stated on the two maps: a group of
    one map that the other lacks, or a replica string of a group of both
    maps that only one of the two entities has. *)
Definition reported (entries_app_db entries_cache : list IrEntity)
    (f : Failure) : Prop :=
  let map_app_db := GroupMap entries_app_db in
  let map_cache := GroupMap entries_cache in
  match f with
  | CacheMissingGroup g =>
      map_find N.ltb g map_app_db <> None /\ map_find N.ltb g map_cache = None
  | AppDbMissingGroup g =>
      map_find N.ltb g map_cache <> None /\ map_find N.ltb g map_app_db = None
  | CacheMissingReplica d g =>
      exists entity_app_db entity_cache,
        map_find N.ltb g map_app_db = Some entity_app_db
        /\ map_find N.ltb g map_cache = Some entity_cache
        /\ In d (replica_strings entity_app_db)
        /\ ~ In d (replica_strings entity_cache)
  | AppDbMissingReplica d g =>
      exists entity_app_db entity_cache,
        map_find N.ltb g map_app_db = Some entity_app_db
        /\ map_find N.ltb g map_cache = Some entity_cache
        /\ In d (replica_strings entity_cache)
        /\ ~ In d (replica_strings entity_app_db)
  end.

(** The loop that fills a map of [ComparePacketReplicationTableEntries],
    started from any map. *)
Definition assign_entries (entries : list IrEntity) (m : list (N * IrEntity))
  : list (N * IrEntity) :=
  fold_left (fun m entry => map_assign N.ltb (group_id_of entry) entry m)
    entries m.

(** The last entity of a vector with a given group id, if any. *)
Definition last_with_group (g : N) (entries : list IrEntity) : option IrEntity :=
  find (fun e => group_id_of e =? g) (rev entries).

(** The replicas of an entity. *)
Definition replicas_of (entity : IrEntity) : list IrReplica :=
  replicas (multicast_group_entry (packet_replication_engine_entry entity)).

(** How often a message occurs in a vector of failures. *)
Definition occurrences (message : str) (failures : list str) : nat :=
  count_occ (list_eq_dec ascii_dec) failures message.

(** ** Hexadecimal numerals *)

(** A text without the white space around it. *)
Definition trimmed (text : str) : str :=
  rev (drop_space (rev (drop_space text))).

Definition all_space (ws : str) : Prop :=
  Forall (fun c => ascii_isspace c = true) ws.

(** The characters [0-9a-fA-F]. *)
Definition all_hex_digits (body : str) : Prop :=
  Forall (fun c => kAsciiToInt c < 16) body.

(** [text] is a hexadecimal numeral of the 32-bit value [n]: white space,
    an optional ['+'], an optional ["0x"] or ["0X"], at least one
    hexadecimal digit, white space; the digits denote [n], which fits 32
    bits. *)
Definition hex_numeral (text : str) (n : N) : Prop :=
  exists ws1 sign marker body ws2,
    text = ws1 ++ sign ++ marker ++ body ++ ws2
    /\ all_space ws1 /\ all_space ws2
    /\ (sign = [] \/ sign = lit "+")
    /\ (marker = [] \/ marker = lit "0x" \/ marker = lit "0X")
    /\ body <> [] /\ all_hex_digits body
    /\ n = digits_value 16 body 0 /\ n <= uint32_max.

(** ** The reader *)

(** The part of a key after the table prefix. *)
Definition group_id_text (table_name key : str) : str :=
  substr_from key (length (TablePrefix table_name)).

(** A field name the replica loop rejects: it has no [':'], or
    [absl::SimpleHexAtoi] returns false on the text after the last one. *)
Definition rejected_field (field : str) : Prop :=
  match rfind ":" field with
  | None => True
  | Some value_split =>
      SimpleHexAtoi (substr_from field (value_split + 1)) = None
  end.

(** A key the key loop rejects: [absl::SimpleHexAtoi] returns false on the
    text after the prefix, or a field name is rejected. *)
Definition rejected_key (table_name : str) (p4rt_table : P4rtTable)
    (key : str) : Prop :=
  SimpleHexAtoi (group_id_text table_name key) = None
  \/ exists kfv, In kfv (get (app_db p4rt_table) key)
                 /\ rejected_field (fst kfv).

(** A field name without [':'], or whose text after the last [':'] is not
    a hexadecimal numeral of a 32-bit value. *)
Definition malformed_field (field : str) : Prop :=
  match rfind ":" field with
  | None => True
  | Some value_split =>
      forall n, ~ hex_numeral (substr_from field (value_split + 1)) n
  end.

(** A key of the table whose text after the prefix is not a hexadecimal
    numeral of a 32-bit value, or with a malformed field name. *)
Definition malformed_key (table_name : str) (p4rt_table : P4rtTable)
    (key : str) : Prop :=
  (forall n, ~ hex_numeral (group_id_text table_name key) n)
  \/ exists kfv, In kfv (get (app_db p4rt_table) key)
                 /\ malformed_field (fst kfv).

(** The entry read from a key. *)
Definition entry_of_key (table_name : str) (p4rt_table : P4rtTable)
    (key : str) (entry : IrPacketReplicationEngineEntry) : Prop :=
  StartsWith key (TablePrefix table_name) = true
  /\ SimpleHexAtoi (group_id_text table_name key)
     = Some (multicast_group_id (multicast_group_entry entry))
  /\ Forall2 (fun kfv replica => ParseReplica (fst kfv) = Ok replica)
       (get (app_db p4rt_table) key)
       (replicas (multicast_group_entry entry)).

(** Field names as [CreateEntryForInsert] writes them for 32-bit
    instances, no name twice. *)
Definition written_fields (kfvs : list (str * str)) : Prop :=
  NoDup (map fst kfvs)
  /\ forall kfv, In kfv kfvs ->
       exists r, instance r < 2 ^ 32 /\ fst kfv = port_instance r.

(** The table with other keys and the same fields. *)
Definition with_keys (p4rt_table : P4rtTable) (ks : list str) : P4rtTable :=
  {| app_db := {| keys := ks; get := get (app_db p4rt_table) |} |}.

(** ** Sample values *)

Definition mk_replica (p : string) (i : N) : IrReplica :=
  {| port := lit p; instance := i |}.

Definition mk_entry (g : N) (rs : list IrReplica)
  : IrPacketReplicationEngineEntry :=
  {| multicast_group_entry :=
       {| multicast_group_id := g; replicas := rs |} |}.

Definition mk_entity (g : N) (rs : list IrReplica) : IrEntity :=
  {| packet_replication_engine_entry := mk_entry g rs |}.

(** The table name of sonic-swss-common's schema.h. *)
Definition swss_table_name : str := lit "REPLICATION_IP_MULTICAST_TABLE".

(** A table from its keys and the fields of each key. *)
Definition mk_table (content : list (str * list (str * str))) : P4rtTable :=
  {| app_db :=
       {| keys := map fst content;
          get := fun key =>
                   match find (fun kv => if list_eq_dec ascii_dec (fst kv) key
                                         then true else false) content with
                   | Some kv => snd kv
                   | None => []
                   end |} |}.

(** ** Written tables *)

(** The table holds, at the key of the tuple that [CreateEntryForInsert]
    writes for [entry], the fields of that tuple. *)
Definition holds_entry (table_name : str)
    (IrMulticastGroupEntryToAppDbKey : IrMulticastGroupEntry -> str)
    (p4rt_table : P4rtTable) (entry : IrPacketReplicationEngineEntry) : Prop :=
  exists key_value,
    snd (CreateEntryForInsert table_name IrMulticastGroupEntryToAppDbKey
           entry [])
    = [key_value]
    /\ get (app_db p4rt_table) (kfvKey key_value) = kfvFieldsValues key_value.

(** ** The messages of one group *)

(** The replica messages of group [g] in [failures] are those of comparing
    [entity_app_db] with [entity_cache]: one message, once, for each replica
    that only one of the two has, and no other replica message of [g]. *)
Definition replica_messages_of (failures : list str) (g : N)
    (entity_app_db entity_cache : IrEntity) : Prop :=
  (forall r,
      In r (replicas_of entity_app_db) -> ~ In r (replicas_of entity_cache) ->
      occurrences (cache_missing_replica (pi r) g) failures = 1%nat)
  /\ (forall r,
      In r (replicas_of entity_cache) -> ~ In r (replicas_of entity_app_db) ->
      occurrences (app_db_missing_replica (pi r) g) failures = 1%nat)
  /\ (forall d,
      In (cache_missing_replica d g) failures ->
      exists r, d = pi r /\ In r (replicas_of entity_app_db)
                /\ ~ In r (replicas_of entity_cache))
  /\ (forall d,
      In (app_db_missing_replica d g) failures ->
      exists r, d = pi r /\ In r (replicas_of entity_cache)
                /\ ~ In r (replicas_of entity_app_db)).

(** Text that is written in hexadecimal digits, after an optional ["0x"]
    or ["0X"], and whose value does not fit 32 bits. *)
Definition oversize_numeral (text : str) : Prop :=
  exists marker body,
    text = marker ++ body
    /\ (marker = [] \/ marker = lit "0x" \/ marker = lit "0X")
    /\ body <> [] /\ all_hex_digits body
    /\ 2 ^ 32 <= digits_value 16 body 0.

(** ** Agreeing vectors *)

(** Two entities have the same replicas, as sets. *)
Definition same_replicas (e e' : IrEntity) : Prop :=
  forall r, In r (replicas_of e) <-> In r (replicas_of e').

(** Two vectors have the same group ids and, for each of them, last
    entities with the same replicas. *)
Definition consistent (entries entries' : list IrEntity) : Prop :=
  forall g,
    match last_with_group g entries, last_with_group g entries' with
    | Some e, Some e' => same_replicas e e'
    | None, None => True
    | _, _ => False
    end.

(** * Properties *)

(** ** Digits *)

Lemma below_16_cases d :
  d < 16 -> In d [0; 1; 2; 3; 4; 5; 6; 7; 8; 9; 10; 11; 12; 13; 14; 15].
Proof.
  intros Hd.
  destruct d as [| p]; [simpl; auto |].
  do 4 (destruct p as [p | p |]; try lia; try (simpl; tauto)).
Qed.

Lemma kAsciiToInt_digit_char d : d < 16 -> kAsciiToInt (digit_char d) = d.
Proof.
  intros Hd. apply below_16_cases in Hd. simpl in Hd.
  repeat (destruct Hd as [<- | Hd]; [reflexivity |]). contradiction.
Qed.

Lemma is_hex_lower_digit_char d : d < 16 -> is_hex_lower (digit_char d) = true.
Proof.
  intros Hd. apply below_16_cases in Hd. simpl in Hd.
  repeat (destruct Hd as [<- | Hd]; [reflexivity |]). contradiction.
Qed.

Section Digits.
Variable base : N.
Hypothesis base_lo : 2 <= base.
Hypothesis base_hi : base <= 16.

Lemma digit_ok_digit_char n : digit_ok base (digit_char (n mod base)).
Proof.
  assert (n mod base < base) by (apply N.mod_lt; lia).
  split.
  - apply is_hex_lower_digit_char. lia.
  - rewrite kAsciiToInt_digit_char; lia.
Qed.

Lemma digits_value_app ds1 ds2 v :
  digits_value base (ds1 ++ ds2) v
  = digits_value base ds2 (digits_value base ds1 v).
Proof. unfold digits_value. apply fold_left_app. Qed.

Lemma single_digit_value n v :
  n < base ->
  digits_value base [digit_char (n mod base)] v
  = v * base ^ N.of_nat (length [digit_char (n mod base)]) + n.
Proof.
  intros Hn. unfold digits_value. cbn [fold_left length].
  change (N.of_nat 1) with 1. rewrite N.pow_1_r.
  rewrite N.mod_small by assumption.
  rewrite kAsciiToInt_digit_char by lia. reflexivity.
Qed.

Lemma digits_loop_spec fuel : forall n acc,
  n < base ^ N.of_nat (S fuel) ->
  exists ds,
    digits_loop base (S fuel) n acc = ds ++ acc
    /\ ds <> []
    /\ Forall (digit_ok base) ds
    /\ forall v,
         digits_value base ds v = v * base ^ N.of_nat (length ds) + n.
Proof.
  induction fuel as [| fuel IH]; intros n acc Hn.
  - exists [digit_char (n mod base)].
    assert (Hsmall : n < base)
      by (change (N.of_nat 1) with 1 in Hn; rewrite N.pow_1_r in Hn; exact Hn).
    assert (Hq : n / base = 0) by (apply N.div_small; assumption).
    repeat split.
    + simpl. rewrite Hq. reflexivity.
    + discriminate.
    + constructor; [apply digit_ok_digit_char | constructor].
    + intros v. apply single_digit_value. assumption.
  - change (digits_loop base (S (S fuel)) n acc)
      with (if n / base =? 0 then digit_char (n mod base) :: acc
            else digits_loop base (S fuel) (n / base)
                   (digit_char (n mod base) :: acc)).
    destruct (N.eqb_spec (n / base) 0) as [Hq | Hq].
    + exists [digit_char (n mod base)].
      assert (Hsmall : n < base).
      { pose proof (N.div_mod n base ltac:(lia)) as E.
        pose proof (N.mod_lt n base ltac:(lia)). lia. }
      repeat split.
      * discriminate.
      * constructor; [apply digit_ok_digit_char | constructor].
      * intros v. apply single_digit_value. assumption.
    + assert (Hlt : n / base < base ^ N.of_nat (S fuel)).
      { apply N.Div0.div_lt_upper_bound.
        replace (N.of_nat (S (S fuel))) with (N.succ (N.of_nat (S fuel)))
          in Hn by lia.
        rewrite N.pow_succ_r' in Hn. exact Hn. }
      destruct (IH (n / base) (digit_char (n mod base) :: acc) Hlt)
        as (ds & Hds & Hne & Hok & Hval).
      exists (ds ++ [digit_char (n mod base)]).
      repeat split.
      * rewrite Hds, <- app_assoc. reflexivity.
      * destruct ds; discriminate.
      * apply Forall_app. split; [assumption |].
        constructor; [apply digit_ok_digit_char | constructor].
      * intros v. rewrite digits_value_app, Hval.
        unfold digits_value at 1. cbn [fold_left].
        rewrite kAsciiToInt_digit_char
          by (pose proof (N.mod_lt n base ltac:(lia)); lia).
        rewrite length_app. cbn [length].
        replace (N.of_nat (length ds + 1)) with (N.succ (N.of_nat (length ds)))
          by lia.
        rewrite N.pow_succ_r'.
        pose proof (N.div_mod n base ltac:(lia)) as E. nia.
Qed.

Lemma digits_spec n :
  exists ds,
    digits base n = ds
    /\ ds <> []
    /\ Forall (digit_ok base) ds
    /\ forall v,
         digits_value base ds v = v * base ^ N.of_nat (length ds) + n.
Proof.
  unfold digits.
  destruct (digits_loop_spec (N.to_nat (N.log2 n)) n []) as (ds & H & R).
  - replace (N.of_nat (S (N.to_nat (N.log2 n)))) with (N.succ (N.log2 n))
      by lia.
    apply N.lt_le_trans with (2 ^ N.succ (N.log2 n)).
    + destruct (N.eq_dec n 0) as [-> | Hn].
      * simpl. lia.
      * apply N.log2_spec. lia.
    + apply N.pow_le_mono_l. assumption.
  - exists ds. rewrite H, app_nil_r. split; [reflexivity | exact R].
Qed.

Lemma digits_value_digits n : digits_value base (digits base n) 0 = n.
Proof.
  destruct (digits_spec n) as (ds & -> & _ & _ & Hval).
  rewrite Hval. lia.
Qed.

Lemma digits_inj n m : digits base n = digits base m -> n = m.
Proof.
  intros E. rewrite <- (digits_value_digits n), <- (digits_value_digits m).
  now rewrite E.
Qed.

Lemma digits_nonempty n : digits base n <> [].
Proof. destruct (digits_spec n) as (ds & -> & Hne & _). exact Hne. Qed.

Lemma digits_hex_lower n c : In c (digits base n) -> is_hex_lower c = true.
Proof.
  destruct (digits_spec n) as (ds & -> & _ & Hok & _).
  intros Hin. rewrite Forall_forall in Hok. apply (Hok c Hin).
Qed.

Lemma digits_value_le ds : forall v, v <= digits_value base ds v.
Proof.
  induction ds as [| c ds IH]; intros v; simpl.
  - unfold digits_value. simpl. lia.
  - unfold digits_value in *. simpl.
    specialize (IH (v * base + kAsciiToInt c)). nia.
Qed.

(** On digits of the base, [safe_parse_positive_int] computes the value
    whenever that value fits. *)
Lemma safe_parse_positive_int_value vmax ds : forall v,
  Forall (digit_ok base) ds ->
  digits_value base ds v <= vmax ->
  safe_parse_positive_int vmax base ds v = Some (digits_value base ds v).
Proof.
  induction ds as [| c ds IH]; intros v Hok Hle.
  - reflexivity.
  - inversion Hok as [| ? ? [_ Hc] Hok']; subst.
    change (digits_value base (c :: ds) v)
      with (digits_value base ds (v * base + kAsciiToInt c)) in *.
    pose proof (digits_value_le ds (v * base + kAsciiToInt c)) as Hmono.
    simpl.
    destruct (N.leb_spec base (kAsciiToInt c)); [lia |].
    destruct (N.ltb_spec (vmax / base) v) as [Hov | _].
    { exfalso.
      assert (vmax / base * base <= vmax)
        by (rewrite N.mul_comm; apply N.Div0.mul_div_le).
      pose proof (N.div_mod vmax base ltac:(lia)).
      pose proof (N.mod_lt vmax base ltac:(lia)). nia. }
    destruct (N.ltb_spec (vmax - kAsciiToInt c) (v * base)); [lia |].
    apply IH; assumption.
Qed.
End Digits.

(** ** Strings *)

Lemma is_hex_lower_not_space c : is_hex_lower c = true -> ascii_isspace c = false.
Proof.
  unfold is_hex_lower, ascii_isspace. intros H.
  apply orb_true_iff in H.
  rewrite !andb_true_iff, !N.leb_le in H.
  apply orb_false_iff. split.
  - apply N.eqb_neq. lia.
  - apply andb_false_iff. rewrite !N.leb_gt. lia.
Qed.

Lemma is_hex_lower_neq c c' : is_hex_lower c = true -> is_hex_lower c' = false -> c <> c'.
Proof. intros H H' ->. congruence. Qed.

Lemma rfind_None c s : ~ In c s -> rfind c s = None.
Proof.
  induction s as [| a s IH]; intros Hnot; simpl.
  - reflexivity.
  - rewrite IH by (intros Hin; apply Hnot; now right).
    destruct (Ascii.eqb_spec a c) as [-> | _]; [| reflexivity].
    exfalso. apply Hnot. now left.
Qed.

(** [rfind] finds the separator after which no other one occurs. *)
Lemma rfind_last c pre post :
  ~ In c post -> rfind c (pre ++ c :: post) = Some (length pre).
Proof.
  intros Hnot. induction pre as [| a pre IH]; simpl.
  - rewrite rfind_None by assumption. now rewrite Ascii.eqb_refl.
  - now rewrite IH.
Qed.

Lemma rfind_Some_lt c s i : rfind c s = Some i -> (i < length s)%nat.
Proof.
  revert i. induction s as [| a s IH]; intros i; simpl.
  - discriminate.
  - destruct (rfind c s) as [j |].
    + intros [= <-]. specialize (IH j eq_refl). lia.
    + destruct (Ascii.eqb a c); [intros [= <-]; lia | discriminate].
Qed.

Lemma StartsWith_app prefix rest : StartsWith (prefix ++ rest) prefix = true.
Proof.
  induction prefix as [| p prefix IH]; simpl.
  - now destruct rest.
  - now rewrite Ascii.eqb_refl, IH.
Qed.

Lemma StartsWith_inv text prefix :
  StartsWith text prefix = true -> exists rest, text = prefix ++ rest.
Proof.
  revert text. induction prefix as [| p prefix IH]; intros text H.
  - now exists text.
  - destruct text as [| t text]; [discriminate |]. simpl in H.
    apply andb_true_iff in H. destruct H as [Ht H].
    apply Ascii.eqb_eq in Ht. subst t.
    destruct (IH text H) as [rest ->]. now exists rest.
Qed.

Lemma substr_prefix (a b : str) : substr (a ++ b) 0 (length a) = a.
Proof.
  unfold substr. simpl. rewrite firstn_app, Nat.sub_diag, firstn_all. simpl.
  apply app_nil_r.
Qed.

Lemma substr_from_suffix (a b : str) : substr_from (a ++ b) (length a) = b.
Proof.
  unfold substr_from. rewrite skipn_app, Nat.sub_diag, skipn_all. reflexivity.
Qed.

Lemma drop_space_head c s : ascii_isspace c = false -> drop_space (c :: s) = c :: s.
Proof. intros H. simpl. now rewrite H. Qed.

(** ** The hexadecimal round trip of [absl] *)

Lemma uint32_max_bound n : n < 2 ^ 32 <-> n <= uint32_max.
Proof. unfold uint32_max. change (2 ^ 32) with 4294967296. lia. Qed.

Lemma safe_parse_sign_and_base16_0x ds :
  ds <> [] ->
  Forall (fun c => is_hex_lower c = true) ds ->
  safe_parse_sign_and_base16 (lit "0x" ++ ds) = Some (ds, false).
Proof.
  intros Hne Hok. unfold safe_parse_sign_and_base16.
  change (lit "0x" ++ ds) with ("0"%char :: "x"%char :: ds).
  rewrite drop_space_head by reflexivity.
  destruct (exists_last Hne) as (ds' & l & ->).
  assert (Hl : ascii_isspace l = false).
  { apply is_hex_lower_not_space. rewrite Forall_forall in Hok.
    apply Hok, in_or_app. right. now left. }
  replace (rev ("0"%char :: "x"%char :: ds' ++ [l]))
    with (l :: rev ("0"%char :: "x"%char :: ds'))
    by (change ("0"%char :: "x"%char :: ds' ++ [l])
          with (("0"%char :: "x"%char :: ds') ++ [l]);
        now rewrite rev_app_distr).
  rewrite drop_space_head by assumption.
  change (l :: rev ("0"%char :: "x"%char :: ds'))
    with (rev [l] ++ rev ("0"%char :: "x"%char :: ds')).
  rewrite <- rev_app_distr, rev_involutive.
  cbn. destruct (ds' ++ [l]) eqn:E; [| reflexivity].
  destruct ds'; discriminate.
Qed.

(** [SimpleHexAtoi] reads back what [absl::Hex] writes after ["0x"]. *)
Lemma SimpleHexAtoi_0x_Hex n :
  n < 2 ^ 32 -> SimpleHexAtoi (lit "0x" ++ Hex n) = Some n.
Proof.
  intros Hn. unfold SimpleHexAtoi, Hex.
  destruct (digits_spec 16 ltac:(lia) ltac:(lia) n)
    as (ds & -> & Hne & Hok & Hval).
  assert (Hlow : Forall (fun c => is_hex_lower c = true) ds)
    by (eapply Forall_impl; [| exact Hok]; intros c [H _]; exact H).
  rewrite (safe_parse_sign_and_base16_0x ds Hne Hlow).
  assert (Hfit : digits_value 16 ds 0 <= uint32_max)
    by (rewrite Hval; apply uint32_max_bound in Hn; lia).
  rewrite (safe_parse_positive_int_value 16 ltac:(lia) ltac:(lia)
             uint32_max ds 0 Hok Hfit).
  rewrite Hval. f_equal.
Qed.

Lemma Hex_chars n c : In c (Hex n) -> is_hex_lower c = true.
Proof. apply digits_hex_lower; lia. Qed.

Lemma Dec_chars n c : In c (Dec n) -> is_hex_lower c = true.
Proof. apply digits_hex_lower; lia. Qed.

Lemma Dec_inj n m : Dec n = Dec m -> n = m.
Proof. apply digits_inj; lia. Qed.

(** ** The replica field name *)

Lemma port_instance_split r :
  port_instance r = port r ++ ":"%char :: (lit "0x" ++ Hex (instance r)).
Proof. reflexivity. Qed.

Lemma no_colon_after_split n : ~ In ":"%char (lit "0x" ++ Hex n).
Proof.
  intros [H | [H | H]]; try discriminate.
  apply Hex_chars in H. discriminate.
Qed.

(** The replica loop reads back the field name of a replica. *)
Lemma ParseReplica_port_instance r :
  instance r < 2 ^ 32 -> ParseReplica (port_instance r) = Ok r.
Proof.
  destruct r as [p i]. cbn [instance]. intros Hi.
  unfold ParseReplica. rewrite port_instance_split. cbn [port instance].
  rewrite rfind_last by apply no_colon_after_split.
  rewrite substr_prefix.
  replace (length p + 1)%nat with (length (p ++ [":"%char]))
    by (rewrite length_app; reflexivity).
  replace (p ++ ":"%char :: (lit "0x" ++ Hex i))
    with ((p ++ [":"%char]) ++ (lit "0x" ++ Hex i))
    by (now rewrite <- app_assoc).
  rewrite substr_from_suffix.
  now rewrite SimpleHexAtoi_0x_Hex.
Qed.

(** C1.  For every port string, also one that holds [':'], and every
    unsigned 32-bit instance, the replica loop of the reader, which splits a
    field name at its last [':'] and parses the rest as hexadecimal, maps the
    field name written by [CreateEntryForInsert] (port, [":0x"], lower-case
    hexadecimal instance) back to the same port and instance. *)
Theorem replica_field_round_trip (p : str) (i : N) :
  i < 2 ^ 32 ->
  ParseReplica (port_instance {| port := p; instance := i |})
  = Ok {| port := p; instance := i |}.
Proof.
  intros Hi. unfold ParseReplica.
  rewrite port_instance_split. cbn [port instance].
  (* the last ':' is the one the writer put in: none follows it *)
  rewrite rfind_last by apply no_colon_after_split.
  (* the port is what is before it *)
  rewrite substr_prefix.
  (* the instance is read from what is after it *)
  replace (length p + 1)%nat with (length (p ++ [":"%char]))
    by (rewrite length_app; reflexivity).
  replace (p ++ ":"%char :: (lit "0x" ++ Hex i))
    with ((p ++ [":"%char]) ++ (lit "0x" ++ Hex i))
    by (now rewrite <- app_assoc).
  rewrite substr_from_suffix, SimpleHexAtoi_0x_Hex by assumption.
  reflexivity.
Qed.

Lemma replica_field_round_trip_witness :
  ParseReplica
    (port_instance {| port := lit "Ethernet1/2:3"; instance := 4294967295 |})
  = Ok {| port := lit "Ethernet1/2:3"; instance := 4294967295 |}.
Proof. apply replica_field_round_trip. reflexivity. Defined.

(** ** Ordered containers *)

Section Ordered.
Context {K : Type} (less : K -> K -> bool) `{!StrictTotalOrder less}.

Lemma irrefl_less x : less x x = false.
Proof. apply less_irrefl. Qed.

Lemma trans_less x y z :
  less x y = true -> less y z = true -> less x z = true.
Proof. apply less_trans. Qed.

Lemma total_less x y : less x y = false -> less y x = false -> x = y.
Proof. apply less_total. Qed.

Lemma less_asym x y : less x y = true -> less y x = false.
Proof.
  intros Hxy. destruct (less y x) eqn:Hyx; [| reflexivity].
  rewrite <- (irrefl_less x). symmetry. now apply trans_less with y.
Qed.

Lemma equiv_key_eq x y : equiv_key less x y = true <-> x = y.
Proof.
  unfold equiv_key. split.
  - intros H. apply negb_true_iff, orb_false_iff in H.
    now apply total_less.
  - intros ->. now rewrite irrefl_less.
Qed.

Lemma equiv_key_neq x y : equiv_key less x y = false <-> x <> y.
Proof.
  rewrite <- equiv_key_eq. destruct (equiv_key less x y); split; congruence.
Qed.

Lemma mem_key_In x s : mem_key less x s = true <-> In x s.
Proof.
  unfold mem_key. rewrite existsb_exists. split.
  - intros (y & Hy & E). apply equiv_key_eq in E. now subst.
  - intros Hx. exists x. split; [assumption | now apply equiv_key_eq].
Qed.

Lemma mem_key_not_In x s : mem_key less x s = false <-> ~ In x s.
Proof.
  rewrite <- mem_key_In. destruct (mem_key less x s); split; congruence.
Qed.

Lemma increasing_inv x s :
  increasing less (x :: s) ->
  increasing less s /\ forall y, In y s -> less x y = true.
Proof.
  intros H. apply StronglySorted_inv in H. destruct H as [Hs Hall].
  split; [assumption |]. now rewrite Forall_forall in Hall.
Qed.

Lemma increasing_cons x s :
  increasing less s -> (forall y, In y s -> less x y = true) ->
  increasing less (x :: s).
Proof.
  intros Hs Hall. constructor; [assumption |]. now apply Forall_forall.
Qed.

Lemma increasing_NoDup s : increasing less s -> NoDup s.
Proof.
  induction s as [| x s IH]; intros H.
  - constructor.
  - apply increasing_inv in H. destruct H as [Hs Hall]. constructor.
    + intros Hin. specialize (Hall x Hin). now rewrite irrefl_less in Hall.
    + now apply IH.
Qed.

(** *** [btree_set] *)

Lemma set_insert_In x s z : In z (set_insert less x s) <-> z = x \/ In z s.
Proof.
  induction s as [| y s IH]; simpl.
  - intuition congruence.
  - destruct (less x y) eqn:Hxy; [simpl; intuition congruence |].
    destruct (less y x) eqn:Hyx.
    + simpl. rewrite IH. intuition congruence.
    + assert (x = y) by now apply total_less. subst. simpl. intuition.
Qed.

Lemma set_insert_increasing x s :
  increasing less s -> increasing less (set_insert less x s).
Proof.
  induction s as [| y s IH]; intros Hs; simpl.
  - apply increasing_cons; [constructor | intros ? []].
  - destruct (increasing_inv _ _ Hs) as [Hs' Hall].
    destruct (less x y) eqn:Hxy.
    + apply increasing_cons; [assumption |].
      intros z [<- | Hz]; [assumption |].
      apply trans_less with y; auto.
    + destruct (less y x) eqn:Hyx; [| assumption].
      apply increasing_cons; [now apply IH |].
      intros z Hz. apply set_insert_In in Hz.
      destruct Hz as [-> | Hz]; auto.
Qed.

Lemma filter_true {A : Type} (f : A -> bool) (l : list A) :
  (forall x, In x l -> f x = true) -> filter f l = l.
Proof.
  induction l as [| a l IH]; intros H; simpl.
  - reflexivity.
  - rewrite (H a (or_introl eq_refl)). f_equal. apply IH.
    intros x Hx. apply H. now right.
Qed.

(** [std::set_difference] of two sets keeps, in order, the elements of the
    first that the second does not hold. *)
Lemma set_difference_filter a :
  increasing less a -> forall b, increasing less b ->
  set_difference less a b = filter (fun x => negb (mem_key less x b)) a.
Proof.
  induction a as [| x a IHa]; intros Ha b; [reflexivity |].
  destruct (increasing_inv _ _ Ha) as [Ha' Hxa].
  induction b as [| y b IHb]; intros Hb.
  - simpl. f_equal. symmetry. now apply filter_true.
  - destruct (increasing_inv _ _ Hb) as [Hb' Hyb].
    cbn [set_difference].
    destruct (less x y) eqn:Hxy.
    + (* x is below every element of b *)
      rewrite (IHa Ha' (y :: b) Hb).
      cbn [filter].
      assert (Hx : mem_key less x (y :: b) = false).
      { apply mem_key_not_In. intros [<- | Hin].
        - now rewrite irrefl_less in Hxy.
        - specialize (Hyb x Hin).
          pose proof (trans_less _ _ _ Hxy Hyb) as C.
          now rewrite irrefl_less in C. }
      now rewrite Hx.
    + assert (Hskip : forall z, In z a -> less y z = true ->
                mem_key less z (y :: b) = mem_key less z b).
      { intros z _ Hyz. unfold mem_key. cbn [existsb].
        replace (equiv_key less z y) with false; [reflexivity |].
        symmetry. apply equiv_key_neq. intros ->.
        now rewrite irrefl_less in Hyz. }
      destruct (less y x) eqn:Hyx.
      * (* y is below every element of x :: a *)
        change (set_difference less (x :: a) b
                = filter (fun z => negb (mem_key less z (y :: b))) (x :: a)).
        rewrite (IHb Hb').
        apply filter_ext_in. intros z Hz. f_equal. symmetry.
        unfold mem_key. cbn [existsb].
        replace (equiv_key less z y) with false; [reflexivity |].
        symmetry. apply equiv_key_neq. intros ->.
        destruct Hz as [-> | Hz].
        -- now rewrite irrefl_less in Hyx.
        -- specialize (Hxa y Hz).
           pose proof (trans_less _ _ _ Hyx Hxa) as C.
           now rewrite irrefl_less in C.
      * (* x = y *)
        assert (x = y) by now apply total_less. subst y.
        rewrite (IHa Ha' b Hb'). cbn [filter].
        assert (Hx : mem_key less x (x :: b) = true)
          by (apply mem_key_In; now left).
        rewrite Hx. cbn [negb].
        apply filter_ext_in. intros z Hz. f_equal. symmetry.
        apply Hskip; auto.
Qed.

Lemma set_difference_In a b z :
  increasing less a -> increasing less b ->
  (In z (set_difference less a b) <-> In z a /\ ~ In z b).
Proof.
  intros Ha Hb. rewrite set_difference_filter by assumption.
  rewrite filter_In, negb_true_iff, mem_key_not_In. reflexivity.
Qed.

Lemma set_difference_NoDup a b :
  increasing less a -> increasing less b ->
  NoDup (set_difference less a b).
Proof.
  intros Ha Hb. rewrite set_difference_filter by assumption.
  apply NoDup_filter. now apply increasing_NoDup.
Qed.

(** *** [btree_map] *)

Context {V : Type}.

Lemma map_find_assign k k' (v : V) m :
  map_find less k (map_assign less k' v m)
  = if equiv_key less k k' then Some v else map_find less k m.
Proof.
  induction m as [| [k1 v1] m IH]; cbn [map_assign map_find].
  - unfold equiv_key. now destruct (less k k' || less k' k).
  - destruct (less k' k1) eqn:H1.
    + cbn [map_find]. unfold equiv_key.
      now destruct (less k k' || less k' k).
    + destruct (less k1 k') eqn:H2.
      * cbn [map_find]. rewrite IH.
        destruct (less k k1 || less k1 k) eqn:E; [reflexivity |].
        assert (k = k1) by (apply orb_false_iff in E; now apply total_less).
        subst k1.
        replace (equiv_key less k k') with false; [reflexivity |].
        symmetry. apply equiv_key_neq. intros ->.
        now rewrite irrefl_less in H2.
      * assert (k' = k1) by now apply total_less. subst k1.
        cbn [map_find]. unfold equiv_key.
        now destruct (less k k' || less k' k).
Qed.

Lemma map_assign_keys k (v : V) m z :
  In z (map fst (map_assign less k v m)) <-> z = k \/ In z (map fst m).
Proof.
  induction m as [| [k1 v1] m IH]; cbn [map_assign map fst].
  - simpl. intuition congruence.
  - destruct (less k k1) eqn:H1; [simpl; intuition congruence |].
    destruct (less k1 k) eqn:H2.
    + cbn [map fst In]. rewrite IH. intuition congruence.
    + assert (k = k1) by now apply total_less. subst.
      simpl. intuition.
Qed.

Lemma map_assign_increasing k (v : V) m :
  increasing less (map fst m) ->
  increasing less (map fst (map_assign less k v m)).
Proof.
  induction m as [| [k1 v1] m IH]; intros Hm; cbn [map_assign].
  - apply increasing_cons; [constructor | intros ? []].
  - cbn [map fst] in Hm.
    destruct (increasing_inv _ _ Hm) as [Hm' Hall].
    destruct (less k k1) eqn:H1.
    + apply increasing_cons; [assumption |].
      intros z [<- | Hz]; [assumption |].
      apply trans_less with k1; auto.
    + destruct (less k1 k) eqn:H2.
      * cbn [map fst]. apply increasing_cons; [now apply IH |].
        intros z Hz. apply map_assign_keys in Hz.
        destruct Hz as [-> | Hz]; auto.
      * assert (k = k1) by now apply total_less. subst.
        cbn [map fst]. now apply increasing_cons.
Qed.

Lemma map_find_In k (v : V) m :
  increasing less (map fst m) ->
  (map_find less k m = Some v <-> In (k, v) m).
Proof.
  induction m as [| [k1 v1] m IH]; intros Hm; cbn [map_find].
  - split; [discriminate | intros []].
  - cbn [map fst] in Hm.
    destruct (increasing_inv _ _ Hm) as [Hm' Hall].
    destruct (less k k1 || less k1 k) eqn:E.
    + rewrite (IH Hm'). split; [now right |].
      intros [[= -> ->] | Hin]; [| assumption].
      now rewrite irrefl_less in E.
    + assert (k = k1) by (apply orb_false_iff in E; now apply total_less).
      subst k1. split.
      * intros [= ->]. now left.
      * intros [[= ->] | Hin]; [reflexivity |].
        assert (Hk : In k (map fst m)) by (apply in_map_iff; now exists (k, v)).
        specialize (Hall k Hk). now rewrite irrefl_less in Hall.
Qed.

Lemma map_find_None k (m : list (K * V)) :
  map_find less k m = None <-> ~ In k (map fst m).
Proof.
  induction m as [| [k1 v1] m IH]; cbn [map_find map fst].
  - split; [intros _ [] | reflexivity].
  - destruct (less k k1 || less k1 k) eqn:E.
    + rewrite IH. split.
      * intros Hn [<- | Hin]; [| contradiction].
        now rewrite irrefl_less in E.
      * intros Hn Hin. apply Hn. now right.
    + assert (k = k1) by (apply orb_false_iff in E; now apply total_less).
      subst. split; [discriminate |]. intros Hn. exfalso. apply Hn. now left.
Qed.
End Ordered.

(** ** The two orders of the source *)

#[export] Instance N_ltb_order : StrictTotalOrder N.ltb.
Proof.
  split.
  - intros x. apply N.ltb_irrefl.
  - intros x y z. rewrite !N.ltb_lt. lia.
  - intros x y. rewrite !N.ltb_ge. lia.
Qed.

Lemma N_of_ascii_inj x y : N_of_ascii x = N_of_ascii y -> x = y.
Proof.
  intros E. rewrite <- (ascii_N_embedding x), <- (ascii_N_embedding y).
  now rewrite E.
Qed.

#[export] Instance str_less_order : StrictTotalOrder str_less.
Proof.
  split.
  - intros a. induction a as [| x a IH]; simpl; [reflexivity |].
    now rewrite N.ltb_irrefl.
  - intros a. induction a as [| x a IH]; intros [| y b] [| z c]; simpl;
      try discriminate; try reflexivity.
    destruct (N.ltb_spec (N_of_ascii x) (N_of_ascii y));
      destruct (N.ltb_spec (N_of_ascii y) (N_of_ascii x));
      destruct (N.ltb_spec (N_of_ascii y) (N_of_ascii z));
      destruct (N.ltb_spec (N_of_ascii z) (N_of_ascii y));
      destruct (N.ltb_spec (N_of_ascii x) (N_of_ascii z));
      destruct (N.ltb_spec (N_of_ascii z) (N_of_ascii x));
      try discriminate; try reflexivity; try lia.
    apply IH.
  - intros a. induction a as [| x a IH]; intros [| y b]; simpl;
      try discriminate; try reflexivity.
    destruct (N.ltb_spec (N_of_ascii x) (N_of_ascii y));
      destruct (N.ltb_spec (N_of_ascii y) (N_of_ascii x));
      try discriminate; try lia.
    intros H1 H2. f_equal.
    + apply N_of_ascii_inj. lia.
    + now apply IH.
Qed.

(** ** The comparison strings *)

(** A string splits in one way only around the last occurrence of a
    character. *)
Lemma split_last_unique c (a a' d d' : str) :
  ~ In c d -> ~ In c d' -> a ++ c :: d = a' ++ c :: d' -> a = a' /\ d = d'.
Proof.
  intros Hd Hd' E.
  assert (Hlen : length a = length a').
  { pose proof (rfind_last c a d Hd) as H1.
    pose proof (rfind_last c a' d' Hd') as H2.
    rewrite E in H1. congruence. }
  assert (Ha : a = a').
  { rewrite <- (substr_prefix a (c :: d)), E, Hlen. apply substr_prefix. }
  subst a'. apply app_inv_head in E. injection E as ->. now split.
Qed.

Lemma Dec_no_char c n : is_hex_lower c = false -> ~ In c (Dec n).
Proof. intros Hc Hin. apply Dec_chars in Hin. congruence. Qed.

(** Distinct replicas have distinct comparison strings. *)
Lemma pi_inj r1 r2 : pi r1 = pi r2 -> r1 = r2.
Proof.
  destruct r1 as [p1 i1], r2 as [p2 i2]. unfold pi. simpl.
  intros E. apply split_last_unique in E; try (now apply Dec_no_char).
  destruct E as [-> E]. apply Dec_inj in E. now subst.
Qed.

Lemma group_suffix_inj (a a' : str) g g' :
  a ++ lit " for group id " ++ Dec g = a' ++ lit " for group id " ++ Dec g' ->
  a = a' /\ g = g'.
Proof.
  intros E.
  change (lit " for group id ") with (lit " for group id" ++ [" "%char]) in E.
  rewrite <- !app_assoc in E.
  rewrite !(app_assoc a), !(app_assoc a') in E.
  apply split_last_unique in E; try (now apply Dec_no_char).
  destruct E as [E1 E2]. apply app_inv_tail in E1. apply Dec_inj in E2.
  now split.
Qed.

Lemma cache_missing_replica_inj d g d' g' :
  cache_missing_replica d g = cache_missing_replica d' g' -> d = d' /\ g = g'.
Proof.
  unfold cache_missing_replica. intros E. apply app_inv_head in E.
  now apply group_suffix_inj.
Qed.

Lemma app_db_missing_replica_inj d g d' g' :
  app_db_missing_replica d g = app_db_missing_replica d' g' -> d = d' /\ g = g'.
Proof.
  unfold app_db_missing_replica. intros E. apply app_inv_head in E.
  now apply group_suffix_inj.
Qed.

Lemma cache_missing_group_inj g g' :
  cache_missing_group g = cache_missing_group g' -> g = g'.
Proof.
  unfold cache_missing_group. intros E. apply app_inv_head in E.
  now apply Dec_inj.
Qed.

Lemma app_db_missing_group_inj g g' :
  app_db_missing_group g = app_db_missing_group g' -> g = g'.
Proof.
  unfold app_db_missing_group. intros E. apply app_inv_head in E.
  now apply Dec_inj.
Qed.

Lemma cache_replica_not_app_db_replica d g d' g' :
  cache_missing_replica d g <> app_db_missing_replica d' g'.
Proof. discriminate. Qed.

Lemma cache_replica_not_app_db_group d g g' :
  cache_missing_replica d g <> app_db_missing_group g'.
Proof. discriminate. Qed.

Lemma cache_group_not_app_db_replica g d' g' :
  cache_missing_group g <> app_db_missing_replica d' g'.
Proof. discriminate. Qed.

Lemma cache_group_not_app_db_group g g' :
  cache_missing_group g <> app_db_missing_group g'.
Proof. discriminate. Qed.

Lemma cache_replica_not_cache_group d g g' :
  cache_missing_replica d g <> cache_missing_group g'.
Proof.
  unfold cache_missing_replica, cache_missing_group.
  change (lit "Packet replication cache is missing replica ")
    with (lit "Packet replication cache is missing " ++ lit "replica ").
  change (lit "Packet replication cache is missing multicast group ID ")
    with (lit "Packet replication cache is missing "
          ++ lit "multicast group ID ").
  rewrite <- !app_assoc. intros E. apply app_inv_head in E. discriminate E.
Qed.

Lemma app_db_replica_not_app_db_group d g g' :
  app_db_missing_replica d g <> app_db_missing_group g'.
Proof.
  unfold app_db_missing_replica, app_db_missing_group.
  change (lit "APP DB is missing replica ")
    with (lit "APP DB is missing " ++ lit "replica ").
  change (lit "APP DB is missing multicast group ID ")
    with (lit "APP DB is missing " ++ lit "multicast group ID ").
  rewrite <- !app_assoc. intros E. apply app_inv_head in E. discriminate E.
Qed.

(** ** The comparison, loop by loop *)

Lemma fold_left_push {A B : Type} (f : A -> B) (l : list A) (init : list B) :
  fold_left (fun acc x => acc ++ [f x]) l init = init ++ map f l.
Proof.
  revert init. induction l as [| x l IH]; intros init; simpl.
  - now rewrite app_nil_r.
  - now rewrite IH, <- app_assoc.
Qed.

Lemma concat_map_flat_map {A B C : Type} (g : B -> C) (f : A -> list B) l :
  map g (flat_map f l) = flat_map (fun x => map g (f x)) l.
Proof.
  induction l as [| x l IH]; simpl; [reflexivity |].
  now rewrite map_app, IH.
Qed.

Lemma fold_left_append {A B : Type} (step : list B -> A -> list B)
    (f : A -> list B) (l : list A) (init : list B) :
  (forall acc x, step acc x = acc ++ f x) ->
  fold_left step l init = init ++ flat_map f l.
Proof.
  intros Hstep. revert init. induction l as [| x l IH]; intros init; simpl.
  - now rewrite app_nil_r.
  - now rewrite IH, Hstep, <- app_assoc.
Qed.

Lemma ComparePacketReplicationEntities_failures entity_app_db entity_cache failures :
  ComparePacketReplicationEntities entity_app_db entity_cache failures
  = failures ++ map render (entity_failures entity_app_db entity_cache).
Proof.
  unfold ComparePacketReplicationEntities, entity_failures.
  cbv zeta. rewrite !fold_left_push, <- app_assoc, map_app, !map_map.
  reflexivity.
Qed.

(** The vector returned by the comparison is [table_failures], written
    out. *)
Lemma ComparePacketReplicationTableEntries_failures entries_app_db entries_cache :
  ComparePacketReplicationTableEntries entries_app_db entries_cache
  = map render (table_failures entries_app_db entries_cache).
Proof.
  unfold ComparePacketReplicationTableEntries, table_failures. cbv zeta.
  rewrite map_app, !concat_map_flat_map.
  rewrite (fold_left_append _
             (fun x => map render
                (cache_side_failures (GroupMap entries_app_db) x))).
  - rewrite (fold_left_append _
               (fun x => map render
                  (app_db_side_failures (GroupMap entries_cache) x))).
    + reflexivity.
    + intros acc x. unfold app_db_side_failures.
      destruct (map_find N.ltb (fst x) (GroupMap entries_cache)).
      * apply ComparePacketReplicationEntities_failures.
      * reflexivity.
  - intros acc x. unfold cache_side_failures.
    destruct (map_find N.ltb (fst x) (GroupMap entries_app_db)).
    + now rewrite app_nil_r.
    + reflexivity.
Qed.

(** *** The sets of comparison strings *)

Lemma port_instance_set_spec rs :
  increasing str_less (port_instance_set rs)
  /\ forall s, In s (port_instance_set rs) <-> exists r, In r rs /\ pi r = s.
Proof.
  unfold port_instance_set.
  assert (G : forall init,
             increasing str_less init ->
             let out :=
               fold_left (fun s replica => set_insert str_less (pi replica) s)
                 rs init in
             increasing str_less out
             /\ forall s, In s out <->
                          In s init \/ exists r, In r rs /\ pi r = s).
  { induction rs as [| r rs IH]; intros init Hinit; simpl.
    - split; [assumption |]. intros s. split; [now left |].
      intros [H | (r & [] & _)]. assumption.
    - assert (Hins : increasing str_less (set_insert str_less (pi r) init))
        by now apply (set_insert_increasing str_less).
      destruct (IH _ Hins) as [Hs Hin].
      split; [exact Hs |]. intros s. rewrite Hin, (set_insert_In str_less). split.
      + intros [[-> | H] | (r' & Hr' & E)].
        * right. exists r. split; [now left | reflexivity].
        * now left.
        * right. exists r'. split; [now right | assumption].
      + intros [H | (r' & [<- | Hr'] & E)].
        * left. now right.
        * left. left. now symmetry.
        * right. now exists r'. }
  destruct (G [] (SSorted_nil _)) as [Hs Hin].
  split; [exact Hs |]. intros s. rewrite Hin. split.
  - intros [[] | H]. exact H.
  - intros H. now right.
Qed.

Lemma port_instance_set_increasing rs : increasing str_less (port_instance_set rs).
Proof. apply port_instance_set_spec. Qed.

(** A replica's string is in the set exactly when the replica is in the
    list. *)
Lemma port_instance_set_In rs r : In (pi r) (port_instance_set rs) <-> In r rs.
Proof.
  destruct (port_instance_set_spec rs) as [_ H]. rewrite H. split.
  - intros (r' & Hr' & E). apply pi_inj in E. now subst.
  - intros Hr. now exists r.
Qed.

(** *** The maps from group id to entity *)

Lemma GroupMap_assign_entries entries : GroupMap entries = assign_entries entries [].
Proof. reflexivity. Qed.

Lemma assign_entries_app l1 l2 m :
  assign_entries (l1 ++ l2) m = assign_entries l2 (assign_entries l1 m).
Proof. unfold assign_entries. apply fold_left_app. Qed.

Lemma assign_entries_increasing entries : forall m,
  increasing N.ltb (map fst m) ->
  increasing N.ltb (map fst (assign_entries entries m)).
Proof.
  induction entries as [| e entries IH]; intros m Hm; simpl.
  - assumption.
  - apply IH. now apply (map_assign_increasing N.ltb).
Qed.

(** What [find] returns after the loop: the last entry of the vector with
    that group id, if there is one. *)
Lemma map_find_assign_entries k entries : forall m,
  map_find N.ltb k (assign_entries entries m)
  = match find (fun e => group_id_of e =? k) (rev entries) with
    | Some e => Some e
    | None => map_find N.ltb k m
    end.
Proof.
  induction entries as [| e entries IH] using rev_ind; intros m.
  - reflexivity.
  - rewrite assign_entries_app, rev_app_distr. simpl.
    rewrite (map_find_assign N.ltb).
    unfold equiv_key.
    destruct (N.eqb_spec (group_id_of e) k) as [<- | Hne].
    + now rewrite N.ltb_irrefl.
    + replace (k <? group_id_of e) with (negb (group_id_of e <? k) || false).
      2:{ destruct (N.ltb_spec k (group_id_of e));
          destruct (N.ltb_spec (group_id_of e) k); try reflexivity; lia. }
      destruct (N.ltb_spec (group_id_of e) k); simpl; apply IH.
Qed.

Lemma GroupMap_increasing entries : increasing N.ltb (map fst (GroupMap entries)).
Proof. apply assign_entries_increasing. constructor. Qed.

Lemma GroupMap_find k entries :
  map_find N.ltb k (GroupMap entries)
  = find (fun e => group_id_of e =? k) (rev entries).
Proof.
  rewrite GroupMap_assign_entries, map_find_assign_entries.
  now destruct (find _ _).
Qed.

Lemma GroupMap_In k e entries :
  In (k, e) (GroupMap entries) -> group_id_of e = k /\ In e entries.
Proof.
  intros Hin.
  apply (map_find_In N.ltb) in Hin; [| apply GroupMap_increasing].
  rewrite GroupMap_find in Hin. apply find_some in Hin.
  destruct Hin as [Hin E]. apply N.eqb_eq in E. split; [assumption |].
  now apply in_rev.
Qed.

Lemma GroupMap_NoDup entries : NoDup (map fst (GroupMap entries)).
Proof. apply (increasing_NoDup N.ltb), GroupMap_increasing. Qed.

(** ** Failures and their messages *)

(** Each message is written for one failure only. *)
Lemma render_inj f f' : render f = render f' -> f = f'.
Proof.
  destruct f as [g | d g | d g | g], f' as [g' | d' g' | d' g' | g'];
    cbn [render]; intros E;
    try (now apply cache_missing_group_inj in E; subst);
    try (now apply app_db_missing_group_inj in E; subst);
    try (now apply cache_missing_replica_inj in E; destruct E; subst);
    try (now apply app_db_missing_replica_inj in E; destruct E; subst);
    exfalso;
    first
      [ now apply cache_replica_not_app_db_replica in E
      | now apply cache_replica_not_app_db_group in E
      | now apply cache_group_not_app_db_replica in E
      | now apply cache_group_not_app_db_group in E
      | now apply cache_replica_not_cache_group in E
      | now apply app_db_replica_not_app_db_group in E
      | symmetry in E;
        first
          [ now apply cache_replica_not_app_db_replica in E
          | now apply cache_replica_not_app_db_group in E
          | now apply cache_group_not_app_db_replica in E
          | now apply cache_group_not_app_db_group in E
          | now apply cache_replica_not_cache_group in E
          | now apply app_db_replica_not_app_db_group in E ] ].
Qed.

Lemma exchange_involutive f : exchange (exchange f) = f.
Proof. now destruct f. Qed.

Lemma exchange_inj f f' : exchange f = exchange f' -> f = f'.
Proof.
  intros E. rewrite <- (exchange_involutive f), E. apply exchange_involutive.
Qed.

Lemma exchange_message_cache (rest : str) :
  exchange_message (lit "Packet replication cache is missing " ++ rest)
  = lit "APP DB is missing " ++ rest.
Proof.
  unfold exchange_message.
  now rewrite StartsWith_app, substr_from_suffix.
Qed.

Lemma exchange_message_app_db (rest : str) :
  exchange_message (lit "APP DB is missing " ++ rest)
  = lit "Packet replication cache is missing " ++ rest.
Proof.
  unfold exchange_message.
  replace (StartsWith (lit "APP DB is missing " ++ rest)
             (lit "Packet replication cache is missing "))
    with false by reflexivity.
  now rewrite StartsWith_app, substr_from_suffix.
Qed.

(** Exchanging the subject of a message is exchanging the roles in the
    failure it is written for. *)
Lemma exchange_message_render f : exchange_message (render f) = render (exchange f).
Proof.
  destruct f as [g | d g | d g | g]; cbn [render exchange].
  - apply (exchange_message_cache (lit "multicast group ID " ++ Dec g)).
  - apply (exchange_message_cache
             (lit "replica " ++ d ++ lit " for group id " ++ Dec g)).
  - apply (exchange_message_app_db
             (lit "replica " ++ d ++ lit " for group id " ++ Dec g)).
  - apply (exchange_message_app_db (lit "multicast group ID " ++ Dec g)).
Qed.

(** ** What the comparison reports *)

Lemma replica_strings_increasing e : increasing str_less (replica_strings e).
Proof. apply port_instance_set_increasing. Qed.

Lemma entity_failures_In ea eb f :
  In f (entity_failures ea eb) <->
  (exists d, f = CacheMissingReplica d (group_id_of ea)
             /\ In d (replica_strings ea) /\ ~ In d (replica_strings eb))
  \/ (exists d, f = AppDbMissingReplica d (group_id_of ea)
                /\ In d (replica_strings eb) /\ ~ In d (replica_strings ea)).
Proof.
  unfold entity_failures. cbv zeta. rewrite in_app_iff, !in_map_iff.
  split.
  - intros [(d & <- & Hd) | (d & <- & Hd)];
      apply (set_difference_In str_less) in Hd;
      try apply replica_strings_increasing;
      [left | right]; exists d; tauto.
  - intros [(d & -> & Hd) | (d & -> & Hd)]; [left | right]; exists d;
      (split; [reflexivity |]);
      apply (set_difference_In str_less);
      try apply replica_strings_increasing; assumption.
Qed.

Lemma entity_failures_NoDup ea eb : NoDup (entity_failures ea eb).
Proof.
  unfold entity_failures. cbv zeta. apply NoDup_app.
  - apply NoDup_map_NoDup_ForallPairs.
    + intros x y _ _ E. now injection E.
    + apply (set_difference_NoDup str_less);
        apply replica_strings_increasing.
  - apply NoDup_map_NoDup_ForallPairs.
    + intros x y _ _ E. now injection E.
    + apply (set_difference_NoDup str_less);
        apply replica_strings_increasing.
  - intros f Hf Hf'. apply in_map_iff in Hf, Hf'.
    destruct Hf as (d & <- & _), Hf' as (d' & E & _). discriminate.
Qed.

Lemma GroupMap_find_In k e entries :
  map_find N.ltb k (GroupMap entries) = Some e <-> In (k, e) (GroupMap entries).
Proof. apply (map_find_In N.ltb), GroupMap_increasing. Qed.

Lemma GroupMap_find_group k e entries :
  map_find N.ltb k (GroupMap entries) = Some e -> group_id_of e = k.
Proof. intros H. apply GroupMap_find_In in H. now apply GroupMap_In in H. Qed.

(** The comparison reports what [reported] says, and nothing else. *)
Lemma table_failures_reported entries_app_db entries_cache f :
  In f (table_failures entries_app_db entries_cache)
  <-> reported entries_app_db entries_cache f.
Proof.
  unfold table_failures, reported. cbv zeta.
  set (MA := GroupMap entries_app_db). set (MB := GroupMap entries_cache).
  rewrite in_app_iff, !in_flat_map. split.
  - intros [([k e] & Hin & Hf) | ([k e] & Hin & Hf)].
    + apply GroupMap_find_In in Hin. fold MA in Hin.
      pose proof (GroupMap_find_group _ _ _ Hin) as Hg.
      unfold app_db_side_failures in Hf. cbn [fst snd] in Hf.
      destruct (map_find N.ltb k MB) as [eb |] eqn:Hb.
      * apply entity_failures_In in Hf.
        destruct Hf as [(d & -> & Hd) | (d & -> & Hd)]; rewrite Hg;
          exists e, eb; tauto.
      * destruct Hf as [<- | []]. split; [congruence | assumption].
    + apply GroupMap_find_In in Hin. fold MB in Hin.
      unfold cache_side_failures in Hf. cbn [fst] in Hf.
      destruct (map_find N.ltb k MA) eqn:Ha; [destruct Hf |].
      destruct Hf as [<- | []]. split; [congruence | assumption].
  - destruct f as [g | d g | d g | g].
    + intros [Ha Hb]. left.
      destruct (map_find N.ltb g MA) as [ea |] eqn:Ea; [| congruence].
      exists (g, ea). split; [now apply GroupMap_find_In |].
      unfold app_db_side_failures. cbn [fst]. rewrite Hb. now left.
    + intros (ea & eb & Ha & Hb & Hd). left.
      exists (g, ea). split; [now apply GroupMap_find_In |].
      unfold app_db_side_failures. cbn [fst snd]. fold MB. rewrite Hb.
      apply entity_failures_In. left. exists d.
      rewrite (GroupMap_find_group _ _ _ Ha). tauto.
    + intros (ea & eb & Ha & Hb & Hd). left.
      exists (g, ea). split; [now apply GroupMap_find_In |].
      unfold app_db_side_failures. cbn [fst snd]. fold MB. rewrite Hb.
      apply entity_failures_In. right. exists d.
      rewrite (GroupMap_find_group _ _ _ Ha). tauto.
    + intros [Hb Ha]. right.
      destruct (map_find N.ltb g MB) as [eb |] eqn:Eb; [| congruence].
      exists (g, eb). split; [now apply GroupMap_find_In |].
      unfold cache_side_failures. cbn [fst]. fold MA. rewrite Ha. now left.
Qed.

Lemma NoDup_flat_map_keyed {A B : Type} (key : B -> N)
    (F : N * A -> list B) (l : list (N * A)) :
  NoDup (map fst l) ->
  (forall a, In a l -> NoDup (F a)) ->
  (forall a x, In a l -> In x (F a) -> key x = fst a) ->
  NoDup (flat_map F l).
Proof.
  induction l as [| a l IH]; intros Hnd Hloc Hkey; simpl.
  - constructor.
  - cbn [map] in Hnd. apply NoDup_cons_iff in Hnd. destruct Hnd as [Hnot Hnd].
    apply NoDup_app.
    + apply Hloc. now left.
    + apply IH; auto.
      * intros b Hb. apply Hloc. now right.
      * intros b x Hb. apply Hkey. now right.
    + intros x Hx Hx'. apply in_flat_map in Hx'.
      destruct Hx' as (b & Hb & Hxb). apply Hnot.
      rewrite <- (Hkey a x (or_introl eq_refl) Hx).
      rewrite (Hkey b x (or_intror Hb) Hxb). now apply in_map.
Qed.

(** No failure is reported twice. *)
Lemma table_failures_NoDup entries_app_db entries_cache :
  NoDup (table_failures entries_app_db entries_cache).
Proof.
  unfold table_failures.
  set (MA := GroupMap entries_app_db). set (MB := GroupMap entries_cache).
  apply NoDup_app.
  - apply (NoDup_flat_map_keyed failure_group).
    + apply GroupMap_NoDup.
    + intros [k e] _. unfold app_db_side_failures. cbn [fst snd].
      destruct (map_find N.ltb k MB).
      * apply entity_failures_NoDup.
      * repeat constructor. intros [].
    + intros [k e] f Hin Hf. apply GroupMap_In in Hin.
      destruct Hin as [Hg _].
      unfold app_db_side_failures in Hf. cbn [fst snd] in *.
      destruct (map_find N.ltb k MB) as [eb |].
      * apply entity_failures_In in Hf.
        destruct Hf as [(d & -> & _) | (d & -> & _)]; exact Hg.
      * destruct Hf as [<- | []]. reflexivity.
  - apply (NoDup_flat_map_keyed failure_group).
    + apply GroupMap_NoDup.
    + intros [k e] _. unfold cache_side_failures. cbn [fst].
      destruct (map_find N.ltb k MA); repeat constructor. intros [].
    + intros [k e] f _ Hf. unfold cache_side_failures in Hf. cbn [fst] in *.
      destruct (map_find N.ltb k MA); [destruct Hf |].
      destruct Hf as [<- | []]. reflexivity.
  - intros f Hf Hf'. apply in_flat_map in Hf, Hf'.
    destruct Hf as ([k e] & _ & Hf), Hf' as ([k' e'] & _ & Hf').
    unfold cache_side_failures in Hf'. cbn [fst] in Hf'.
    destruct (map_find N.ltb k' MA); [destruct Hf' |].
    destruct Hf' as [<- | []].
    unfold app_db_side_failures in Hf. cbn [fst snd] in Hf.
    destruct (map_find N.ltb k MB) as [eb |].
    + apply entity_failures_In in Hf.
      destruct Hf as [(d & E & _) | (d & E & _)]; discriminate.
    + destruct Hf as [E | []]. discriminate.
Qed.

(** [reported] does not depend on which side is called App DB. *)
Lemma reported_exchange entries_app_db entries_cache f :
  reported entries_cache entries_app_db (exchange f)
  <-> reported entries_app_db entries_cache f.
Proof.
  destruct f as [g | d g | d g | g]; cbn [exchange reported]; cbv zeta;
    try reflexivity;
    split; intros (x & y & H1 & H2 & H3); exists y, x; tauto.
Qed.

(** ** The returned vector *)

Lemma compare_NoDup entries_app_db entries_cache :
  NoDup (ComparePacketReplicationTableEntries entries_app_db entries_cache).
Proof.
  rewrite ComparePacketReplicationTableEntries_failures.
  apply NoDup_map_NoDup_ForallPairs.
  - intros f f' _ _. apply render_inj.
  - apply table_failures_NoDup.
Qed.

Lemma compare_In entries_app_db entries_cache f :
  In (render f)
     (ComparePacketReplicationTableEntries entries_app_db entries_cache)
  <-> reported entries_app_db entries_cache f.
Proof.
  rewrite ComparePacketReplicationTableEntries_failures,
    <- table_failures_reported, in_map_iff.
  split.
  - intros (f' & E & Hin). apply render_inj in E. now subst.
  - intros Hin. now exists f.
Qed.

Lemma compare_once entries_app_db entries_cache f :
  reported entries_app_db entries_cache f ->
  occurrences (render f)
    (ComparePacketReplicationTableEntries entries_app_db entries_cache) = 1%nat.
Proof.
  intros H. unfold occurrences. apply NoDup_count_occ'.
  - apply compare_NoDup.
  - now apply compare_In.
Qed.

Lemma last_with_group_find g entries :
  map_find N.ltb g (GroupMap entries) = last_with_group g entries.
Proof. apply GroupMap_find. Qed.

Lemma replica_strings_In entity r :
  In (pi r) (replica_strings entity) <-> In r (replicas_of entity).
Proof. apply port_instance_set_In. Qed.

Lemma replica_strings_inv entity d :
  In d (replica_strings entity) ->
  exists r, d = pi r /\ In r (replicas_of entity).
Proof.
  intros H. apply port_instance_set_spec in H.
  destruct H as (r & Hr & <-). now exists r.
Qed.

(** C2.  Let [g] be a group id of both vectors, [entity_app_db] and
    [entity_cache] the entities compared for it.  For a replica of the App DB
    entity that the cache entity lacks, the returned vector holds the message
    "Packet replication cache is missing replica <port>_<decimal instance>
    for group id <g>" exactly once and not the opposite one; for a replica
    of the cache entity that the App DB entity lacks it holds "APP DB is
    missing replica ..." exactly once and not the opposite one; for a
    replica of both it holds neither; and every replica message of group
    [g] in the vector is one of these. *)
Theorem compare_shared_group_replicas
    (entries_app_db entries_cache : list IrEntity) (g : N)
    (entity_app_db entity_cache : IrEntity) :
  last_with_group g entries_app_db = Some entity_app_db ->
  last_with_group g entries_cache = Some entity_cache ->
  let failures :=
    ComparePacketReplicationTableEntries entries_app_db entries_cache in
  (forall r,
      In r (replicas_of entity_app_db) -> ~ In r (replicas_of entity_cache) ->
      occurrences (cache_missing_replica (pi r) g) failures = 1%nat
      /\ ~ In (app_db_missing_replica (pi r) g) failures)
  /\ (forall r,
      In r (replicas_of entity_cache) -> ~ In r (replicas_of entity_app_db) ->
      occurrences (app_db_missing_replica (pi r) g) failures = 1%nat
      /\ ~ In (cache_missing_replica (pi r) g) failures)
  /\ (forall r,
      In r (replicas_of entity_app_db) -> In r (replicas_of entity_cache) ->
      ~ In (cache_missing_replica (pi r) g) failures
      /\ ~ In (app_db_missing_replica (pi r) g) failures)
  /\ (forall d,
      In (cache_missing_replica d g) failures ->
      exists r, d = pi r /\ In r (replicas_of entity_app_db)
                /\ ~ In r (replicas_of entity_cache))
  /\ (forall d,
      In (app_db_missing_replica d g) failures ->
      exists r, d = pi r /\ In r (replicas_of entity_cache)
                /\ ~ In r (replicas_of entity_app_db)).
Proof.
  intros Ha Hb failures. subst failures.
  rewrite <- last_with_group_find in Ha, Hb.
  assert (Hcache : forall d,
             In (cache_missing_replica d g)
                (ComparePacketReplicationTableEntries
                   entries_app_db entries_cache)
             <-> In d (replica_strings entity_app_db)
                 /\ ~ In d (replica_strings entity_cache)).
  { intros d. rewrite (compare_In _ _ (CacheMissingReplica d g)).
    cbn [reported]. cbv zeta. split.
    - intros (ea & eb & Ha' & Hb' & H). rewrite Ha in Ha'. rewrite Hb in Hb'.
      injection Ha' as <-. injection Hb' as <-. exact H.
    - intros H. now exists entity_app_db, entity_cache. }
  assert (Happ : forall d,
             In (app_db_missing_replica d g)
                (ComparePacketReplicationTableEntries
                   entries_app_db entries_cache)
             <-> In d (replica_strings entity_cache)
                 /\ ~ In d (replica_strings entity_app_db)).
  { intros d. rewrite (compare_In _ _ (AppDbMissingReplica d g)).
    cbn [reported]. cbv zeta. split.
    - intros (ea & eb & Ha' & Hb' & H). rewrite Ha in Ha'. rewrite Hb in Hb'.
      injection Ha' as <-. injection Hb' as <-. exact H.
    - intros H. now exists entity_app_db, entity_cache. }
  repeat split.
  - apply (compare_once _ _ (CacheMissingReplica (pi r) g)).
    cbn [reported]. cbv zeta. exists entity_app_db, entity_cache.
    rewrite !replica_strings_In. tauto.
  - rewrite Happ, !replica_strings_In. tauto.
  - apply (compare_once _ _ (AppDbMissingReplica (pi r) g)).
    cbn [reported]. cbv zeta. exists entity_app_db, entity_cache.
    rewrite !replica_strings_In. tauto.
  - rewrite Hcache, !replica_strings_In. tauto.
  - rewrite Hcache, !replica_strings_In. tauto.
  - rewrite Happ, !replica_strings_In. tauto.
  - intros d Hd. apply Hcache in Hd. destruct Hd as [Hin Hnot].
    apply replica_strings_inv in Hin. destruct Hin as (r & -> & Hr).
    exists r. rewrite replica_strings_In in Hnot. tauto.
  - intros d Hd. apply Happ in Hd. destruct Hd as [Hin Hnot].
    apply replica_strings_inv in Hin. destruct Hin as (r & -> & Hr).
    exists r. rewrite replica_strings_In in Hnot. tauto.
Qed.

Lemma compare_shared_group_replicas_witness :
  let app_db := [mk_entity 10 [mk_replica "Ethernet0" 0]] in
  let cache :=
    [mk_entity 10 [mk_replica "Ethernet0" 0; mk_replica "Ethernet4" 1]] in
  let failures := ComparePacketReplicationTableEntries app_db cache in
  occurrences (lit "APP DB is missing replica Ethernet4_1 for group id 10")
    failures = 1%nat
  /\ ~ In (lit "APP DB is missing replica Ethernet0_0 for group id 10") failures
  /\ ~ In (lit "Packet replication cache is missing replica Ethernet0_0 for group id 10")
         failures.
Proof.
  intros app_db cache failures.
  pose proof
    (compare_shared_group_replicas app_db cache 10
       (mk_entity 10 [mk_replica "Ethernet0" 0])
       (mk_entity 10 [mk_replica "Ethernet0" 0; mk_replica "Ethernet4" 1])
       eq_refl eq_refl) as (_ & Hcache & Hboth & _).
  split.
  - apply (Hcache (mk_replica "Ethernet4" 1)).
    + simpl. tauto.
    + simpl. intros [H | []]. discriminate H.
  - split; apply (Hboth (mk_replica "Ethernet0" 0)); simpl; tauto.
Defined.

Lemma compare_no_replica_message_without_both
    (entries_app_db entries_cache : list IrEntity) (g : N) :
  last_with_group g entries_app_db = None
  \/ last_with_group g entries_cache = None ->
  forall d,
    ~ In (cache_missing_replica d g)
        (ComparePacketReplicationTableEntries entries_app_db entries_cache)
    /\ ~ In (app_db_missing_replica d g)
           (ComparePacketReplicationTableEntries entries_app_db entries_cache).
Proof.
  rewrite <- !last_with_group_find. intros Hnone d.
  rewrite (compare_In _ _ (CacheMissingReplica d g)),
    (compare_In _ _ (AppDbMissingReplica d g)).
  cbn [reported]. cbv zeta.
  split; intros (ea & eb & Ha & Hb & _); destruct Hnone; congruence.
Qed.

(** C3.  For a group id of the App DB vector that the cache vector lacks,
    the returned vector holds "Packet replication cache is missing multicast
    group ID <g>" exactly once, no replica message of group [g] and not the
    opposite group message; for a group id of the cache vector that the App
    DB vector lacks it holds "APP DB is missing multicast group ID <g>"
    exactly once, no replica message of group [g] and not the opposite group
    message. *)
Theorem compare_missing_group
    (entries_app_db entries_cache : list IrEntity) (g : N) :
  let failures :=
    ComparePacketReplicationTableEntries entries_app_db entries_cache in
  (last_with_group g entries_app_db <> None ->
   last_with_group g entries_cache = None ->
   occurrences (cache_missing_group g) failures = 1%nat
   /\ ~ In (app_db_missing_group g) failures
   /\ forall d, ~ In (cache_missing_replica d g) failures
                /\ ~ In (app_db_missing_replica d g) failures)
  /\ (last_with_group g entries_cache <> None ->
      last_with_group g entries_app_db = None ->
      occurrences (app_db_missing_group g) failures = 1%nat
      /\ ~ In (cache_missing_group g) failures
      /\ forall d, ~ In (cache_missing_replica d g) failures
                   /\ ~ In (app_db_missing_replica d g) failures).
Proof.
  intros failures. subst failures. split; intros Hsome Hnone.
  - split; [| split].
    + apply (compare_once _ _ (CacheMissingGroup g)).
      cbn [reported]. cbv zeta. now rewrite !last_with_group_find.
    + rewrite (compare_In _ _ (AppDbMissingGroup g)).
      cbn [reported]. cbv zeta. rewrite !last_with_group_find. tauto.
    + apply compare_no_replica_message_without_both. now right.
  - split; [| split].
    + apply (compare_once _ _ (AppDbMissingGroup g)).
      cbn [reported]. cbv zeta. now rewrite !last_with_group_find.
    + rewrite (compare_In _ _ (CacheMissingGroup g)).
      cbn [reported]. cbv zeta. rewrite !last_with_group_find. tauto.
    + apply compare_no_replica_message_without_both. now left.
Qed.

Lemma compare_missing_group_witness :
  let app_db := [mk_entity 7 [mk_replica "Ethernet0" 0]] in
  let cache := [mk_entity 9 []] in
  let failures := ComparePacketReplicationTableEntries app_db cache in
  (occurrences
     (lit "Packet replication cache is missing multicast group ID 7")
     failures = 1%nat
   /\ ~ In (lit "Packet replication cache is missing replica Ethernet0_0 for group id 7")
          failures)
  /\ occurrences (lit "APP DB is missing multicast group ID 9") failures
     = 1%nat.
Proof.
  intros app_db cache failures. split.
  - destruct (proj1 (compare_missing_group app_db cache 7))
      as (Hone & _ & Hnone).
    + discriminate.
    + reflexivity.
    + split; [exact Hone |].
      exact (proj1 (Hnone (pi (mk_replica "Ethernet0" 0)))).
  - destruct (proj2 (compare_missing_group app_db cache 9)) as (Hone & _).
    + discriminate.
    + reflexivity.
    + exact Hone.
Defined.

(** C9.  Comparing B with A returns as many failures as comparing A with B,
    and the failures of the one are those of the other with the subject of
    "is missing" exchanged (cache for App DB and App DB for cache), up to
    their order. *)
Theorem compare_symmetric (entries_a entries_b : list IrEntity) :
  length (ComparePacketReplicationTableEntries entries_a entries_b)
  = length (ComparePacketReplicationTableEntries entries_b entries_a)
  /\ Permutation
       (ComparePacketReplicationTableEntries entries_b entries_a)
       (map exchange_message
          (ComparePacketReplicationTableEntries entries_a entries_b)).
Proof.
  assert (P : Permutation
                (ComparePacketReplicationTableEntries entries_b entries_a)
                (map exchange_message
                   (ComparePacketReplicationTableEntries entries_a entries_b))).
  { rewrite !ComparePacketReplicationTableEntries_failures, map_map.
    rewrite (map_ext (fun f => exchange_message (render f))
               (fun f => render (exchange f)))
      by apply exchange_message_render.
    rewrite <- (map_map exchange render).
    apply Permutation_map. apply NoDup_Permutation.
    - apply table_failures_NoDup.
    - apply NoDup_map_NoDup_ForallPairs.
      + intros f f' _ _. apply exchange_inj.
      + apply table_failures_NoDup.
    - intros f. rewrite table_failures_reported, in_map_iff. split.
      + intros H. exists (exchange f). split; [apply exchange_involutive |].
        apply table_failures_reported.
        now apply (proj2 (reported_exchange entries_b entries_a f)).
      + intros (f' & <- & H).
        apply (proj2 (reported_exchange entries_a entries_b f')).
        now apply table_failures_reported. }
  split; [| exact P].
  apply Permutation_length in P. rewrite length_map in P. now symmetry.
Qed.

(** ** Duplicated group ids *)

Section MapExtensionality.
Context {K V : Type} (less : K -> K -> bool) `{!StrictTotalOrder less}.

Lemma map_find_head k (v : V) m : map_find less k ((k, v) :: m) = Some v.
Proof. cbn [map_find]. now rewrite (irrefl_less less). Qed.

Lemma map_find_tail k k1 (v1 : V) m :
  k <> k1 -> map_find less k ((k1, v1) :: m) = map_find less k m.
Proof.
  intros Hne. cbn [map_find].
  destruct (less k k1 || less k1 k) eqn:E; [reflexivity |].
  exfalso. apply Hne. apply orb_false_iff in E.
  now apply (total_less less).
Qed.

(** Two ordered maps with the same lookups are the same list. *)
Lemma map_extensional (m1 m2 : list (K * V)) :
  increasing less (map fst m1) -> increasing less (map fst m2) ->
  (forall k, map_find less k m1 = map_find less k m2) -> m1 = m2.
Proof.
  revert m2. induction m1 as [| [k1 v1] m1 IH]; intros [| [k2 v2] m2] H1 H2 E.
  - reflexivity.
  - specialize (E k2). rewrite map_find_head in E. discriminate.
  - specialize (E k1). rewrite map_find_head in E. discriminate.
  - cbn [map fst] in H1, H2.
    destruct (increasing_inv less _ _ H1) as [H1' Hall1].
    destruct (increasing_inv less _ _ H2) as [H2' Hall2].
    assert (Hnot1 : ~ In k1 (map fst m1)).
    { intros Hin. specialize (Hall1 _ Hin).
      now rewrite (irrefl_less less) in Hall1. }
    assert (Hnot2 : ~ In k2 (map fst m2)).
    { intros Hin. specialize (Hall2 _ Hin).
      now rewrite (irrefl_less less) in Hall2. }
    assert (Hk : k1 = k2).
    { apply (total_less less).
      - destruct (less k1 k2) eqn:L; [| reflexivity]. exfalso.
        pose proof (E k1) as E1. rewrite map_find_head in E1.
        symmetry in E1. apply (map_find_In less) in E1.
        + destruct E1 as [[= -> ->] | Hin].
          * now rewrite (irrefl_less less) in L.
          * assert (Hin' : In k1 (map fst m2))
              by (apply in_map_iff; now exists (k1, v1)).
            specialize (Hall2 _ Hin').
            pose proof (trans_less less _ _ _ L Hall2) as C.
            now rewrite (irrefl_less less) in C.
        + cbn [map fst]. now apply increasing_cons.
      - destruct (less k2 k1) eqn:L; [| reflexivity]. exfalso.
        pose proof (E k2) as E2. rewrite map_find_head in E2.
        apply (map_find_In less) in E2.
        + destruct E2 as [[= -> ->] | Hin].
          * now rewrite (irrefl_less less) in L.
          * assert (Hin' : In k2 (map fst m1))
              by (apply in_map_iff; now exists (k2, v2)).
            specialize (Hall1 _ Hin').
            pose proof (trans_less less _ _ _ L Hall1) as C.
            now rewrite (irrefl_less less) in C.
        + cbn [map fst]. now apply increasing_cons. }
    subst k2.
    pose proof (E k1) as Ev. rewrite !map_find_head in Ev.
    injection Ev as ->.
    f_equal. apply IH; try assumption.
    intros k. destruct (equiv_key less k k1) eqn:Q.
    + apply (equiv_key_eq less) in Q. subst k.
      apply (map_find_None less) in Hnot1, Hnot2. congruence.
    + apply (equiv_key_neq less) in Q.
      rewrite <- (map_find_tail k k1 v2 m1 Q),
        <- (map_find_tail k k1 v2 m2 Q).
      apply E.
Qed.
End MapExtensionality.

Lemma find_app_split {A : Type} (p : A -> bool) (l1 l2 : list A) :
  find p (l1 ++ l2)
  = match find p l1 with
    | Some x => Some x
    | None => find p l2
    end.
Proof.
  induction l1 as [| a l1 IH]; simpl; [reflexivity |].
  now destruct (p a).
Qed.

Lemma find_filter_implied {A : Type} (p q : A -> bool) (l : list A) :
  (forall x, p x = true -> q x = true) ->
  find p (filter q l) = find p l.
Proof.
  intros Himp. induction l as [| a l IH]; simpl; [reflexivity |].
  destruct (q a) eqn:Q; simpl.
  - now rewrite IH.
  - destruct (p a) eqn:P; [| assumption].
    rewrite (Himp a P) in Q. discriminate.
Qed.

Lemma last_with_group_last g pre e post :
  group_id_of e = g ->
  (forall e', In e' post -> group_id_of e' <> g) ->
  last_with_group g (pre ++ e :: post) = Some e.
Proof.
  intros Hg Hpost. unfold last_with_group.
  rewrite rev_app_distr. cbn [rev]. rewrite <- app_assoc, find_app_split.
  replace (find (fun e0 => group_id_of e0 =? g) (rev post)) with (@None IrEntity).
  - simpl. apply N.eqb_eq in Hg. now rewrite Hg.
  - symmetry. destruct (find _ (rev post)) as [x |] eqn:F; [| reflexivity].
    apply find_some in F. destruct F as [Hin E]. apply N.eqb_eq in E.
    apply in_rev in Hin. now apply Hpost in Hin.
Qed.

(** Entities before [e] with the group id of [e] leave no trace in the
    map. *)
Lemma GroupMap_drop_earlier pre e post :
  GroupMap (pre ++ e :: post)
  = GroupMap
      (filter (fun x => negb (group_id_of x =? group_id_of e)) pre
       ++ e :: post).
Proof.
  apply (map_extensional N.ltb); try apply GroupMap_increasing.
  intros k. rewrite !GroupMap_find, !rev_app_distr. cbn [rev].
  rewrite <- !app_assoc, !find_app_split.
  destruct (find (fun e0 => group_id_of e0 =? k) (rev post)); [reflexivity |].
  simpl. destruct (N.eqb_spec (group_id_of e) k) as [_ | Hne]; [reflexivity |].
  rewrite <- filter_rev. symmetry. apply find_filter_implied.
  intros x Hx. apply N.eqb_eq in Hx. apply negb_true_iff, N.eqb_neq. congruence.
Qed.

(** The replica messages of a group of both vectors are those of the two
    entities found for it. *)
Lemma compare_replica_messages entries_app_db entries_cache g ea eb :
  last_with_group g entries_app_db = Some ea ->
  last_with_group g entries_cache = Some eb ->
  replica_messages_of
    (ComparePacketReplicationTableEntries entries_app_db entries_cache)
    g ea eb.
Proof.
  intros Ha Hb. rewrite <- last_with_group_find in Ha, Hb.
  assert (Hcache : forall d,
             reported entries_app_db entries_cache (CacheMissingReplica d g)
             <-> In d (replica_strings ea) /\ ~ In d (replica_strings eb)).
  { intros d. cbn [reported]. cbv zeta. split.
    - intros (x & y & Hx & Hy & H). rewrite Ha in Hx. rewrite Hb in Hy.
      injection Hx as <-. injection Hy as <-. exact H.
    - intros H. now exists ea, eb. }
  assert (Happ : forall d,
             reported entries_app_db entries_cache (AppDbMissingReplica d g)
             <-> In d (replica_strings eb) /\ ~ In d (replica_strings ea)).
  { intros d. cbn [reported]. cbv zeta. split.
    - intros (x & y & Hx & Hy & H). rewrite Ha in Hx. rewrite Hb in Hy.
      injection Hx as <-. injection Hy as <-. exact H.
    - intros H. now exists ea, eb. }
  unfold replica_messages_of. repeat split.
  - intros r Hin Hnot.
    apply (compare_once _ _ (CacheMissingReplica (pi r) g)).
    apply Hcache. rewrite !replica_strings_In. tauto.
  - intros r Hin Hnot.
    apply (compare_once _ _ (AppDbMissingReplica (pi r) g)).
    apply Happ. rewrite !replica_strings_In. tauto.
  - intros d Hd. apply (compare_In _ _ (CacheMissingReplica d g)) in Hd.
    apply Hcache in Hd. destruct Hd as [Hin Hnot].
    apply replica_strings_inv in Hin. destruct Hin as (r & -> & Hr).
    exists r. rewrite replica_strings_In in Hnot. tauto.
  - intros d Hd. apply (compare_In _ _ (AppDbMissingReplica d g)) in Hd.
    apply Happ in Hd. destruct Hd as [Hin Hnot].
    apply replica_strings_inv in Hin. destruct Hin as (r & -> & Hr).
    exists r. rewrite replica_strings_In in Hnot. tauto.
Qed.

(** C10.  When a group id occurs more than once in a vector, the entity
    compared for it is the last one of the vector with that id: the map
    holds that entity; the replica messages of the group in the vector
    returned are those of comparing that entity with the entity of the other
    vector, or, when the other vector lacks the group, the group is reported
    missing once; and the vector returned is the one returned without the
    earlier entities of that id.  All this holds whichever side the vector
    is on.  (The comparison is a total function: it returns a vector for all
    inputs.) *)
Theorem compare_last_write_wins
    (pre post other : list IrEntity) (e : IrEntity) :
  (forall e', In e' post -> group_id_of e' <> group_id_of e) ->
  let g := group_id_of e in
  let entries := pre ++ e :: post in
  let deduplicated :=
    filter (fun x => negb (group_id_of x =? group_id_of e)) pre
    ++ e :: post in
  map_find N.ltb (group_id_of e) (GroupMap entries) = Some e
  /\ ComparePacketReplicationTableEntries entries other
     = ComparePacketReplicationTableEntries deduplicated other
  /\ ComparePacketReplicationTableEntries other entries
     = ComparePacketReplicationTableEntries other deduplicated
  /\ (forall entity_other,
        last_with_group g other = Some entity_other ->
        replica_messages_of
          (ComparePacketReplicationTableEntries entries other)
          g e entity_other
        /\ replica_messages_of
             (ComparePacketReplicationTableEntries other entries)
             g entity_other e)
  /\ (last_with_group g other = None ->
      occurrences (cache_missing_group g)
        (ComparePacketReplicationTableEntries entries other) = 1%nat
      /\ occurrences (app_db_missing_group g)
           (ComparePacketReplicationTableEntries other entries) = 1%nat).
Proof.
  intros Hpost g entries deduplicated.
  assert (Hlast : last_with_group g entries = Some e)
    by (now apply last_with_group_last).
  subst entries deduplicated.
  split; [| split; [| split; [| split]]].
  - rewrite last_with_group_find. exact Hlast.
  - unfold ComparePacketReplicationTableEntries.
    now rewrite <- GroupMap_drop_earlier.
  - unfold ComparePacketReplicationTableEntries.
    now rewrite <- GroupMap_drop_earlier.
  - intros entity_other Hother. split.
    + now apply compare_replica_messages.
    + now apply compare_replica_messages.
  - intros Hnone. split.
    + apply (compare_once _ _ (CacheMissingGroup g)).
      cbn [reported]. cbv zeta. rewrite !last_with_group_find.
      rewrite Hlast, Hnone. split; [discriminate | reflexivity].
    + apply (compare_once _ _ (AppDbMissingGroup g)).
      cbn [reported]. cbv zeta. rewrite !last_with_group_find.
      rewrite Hlast, Hnone. split; [discriminate | reflexivity].
Qed.

Lemma compare_last_write_wins_witness :
  let first := mk_entity 10 [mk_replica "Ethernet0" 0] in
  let last := mk_entity 10 [mk_replica "Ethernet4" 1] in
  let cache := [mk_entity 10 [mk_replica "Ethernet0" 0]] in
  let failures := ComparePacketReplicationTableEntries [first; last] cache in
  map_find N.ltb 10 (GroupMap [first; last]) = Some last
  /\ failures = ComparePacketReplicationTableEntries [last] cache
  /\ occurrences
       (lit "Packet replication cache is missing replica Ethernet4_1 for group id 10")
       failures = 1%nat
  /\ occurrences
       (lit "APP DB is missing replica Ethernet0_0 for group id 10")
       failures = 1%nat
  /\ ComparePacketReplicationTableEntries [first] cache = [].
Proof.
  intros first last cache failures.
  destruct (compare_last_write_wins [first] [] cache last)
    as (Hmap & Hsame & _ & Hmessages & _).
  { intros e' []. }
  destruct (Hmessages (mk_entity 10 [mk_replica "Ethernet0" 0]) eq_refl)
    as [(Hcache & Happ & _) _].
  split; [exact Hmap |]. split; [exact Hsame |]. split; [| split].
  - apply (Hcache (mk_replica "Ethernet4" 1)).
    + simpl. tauto.
    + simpl. intros [H | []]. discriminate H.
  - apply (Happ (mk_replica "Ethernet0" 0)).
    + simpl. tauto.
    + simpl. intros [H | []]. discriminate H.
  - reflexivity.
Defined.

(** ** What [absl::SimpleHexAtoi] accepts *)

Lemma drop_space_split s :
  exists ws, s = ws ++ drop_space s /\ all_space ws.
Proof.
  induction s as [| c s IH]; cbn [drop_space].
  - exists []. split; [reflexivity | constructor].
  - destruct (ascii_isspace c) eqn:E.
    + destruct IH as (ws & Hs & Hws). exists (c :: ws). split.
      * cbn [app]. now rewrite <- Hs.
      * now constructor.
    + exists []. split; [reflexivity | constructor].
Qed.

Lemma drop_space_spaces ws s : all_space ws -> drop_space (ws ++ s) = drop_space s.
Proof.
  induction 1 as [| c ws Hc _ IH]; cbn [app drop_space].
  - reflexivity.
  - now rewrite Hc.
Qed.

Lemma all_space_rev ws : all_space ws -> all_space (rev ws).
Proof. apply Forall_rev. Qed.

Lemma trimmed_split text :
  exists ws1 ws2,
    text = ws1 ++ trimmed text ++ ws2 /\ all_space ws1 /\ all_space ws2.
Proof.
  destruct (drop_space_split text) as (ws1 & E1 & H1).
  destruct (drop_space_split (rev (drop_space text))) as (w & E2 & H2).
  exists ws1, (rev w). split; [| split].
  - unfold trimmed. rewrite <- rev_app_distr, <- E2, rev_involutive.
    exact E1.
  - assumption.
  - now apply all_space_rev.
Qed.

Lemma hex_digit_not_space c : kAsciiToInt c < 16 -> ascii_isspace c = false.
Proof.
  intros H. unfold kAsciiToInt in H. unfold ascii_isspace. cbv zeta in *.
  set (n := N_of_ascii c) in *.
  destruct (N.leb_spec 48 n), (N.leb_spec n 57), (N.leb_spec 97 n),
    (N.leb_spec n 122), (N.leb_spec 65 n), (N.leb_spec n 90);
    cbn [andb] in H; try lia;
    (apply orb_false_iff; split;
     [apply N.eqb_neq; lia | apply andb_false_iff; rewrite !N.leb_gt; lia]).
Qed.

Lemma trimmed_core ws1 core ws2 c l :
  all_space ws1 -> all_space ws2 ->
  hd_error core = Some c -> ascii_isspace c = false ->
  hd_error (rev core) = Some l -> ascii_isspace l = false ->
  trimmed (ws1 ++ core ++ ws2) = core.
Proof.
  intros H1 H2 Hc Hcs Hl Hls. unfold trimmed.
  rewrite drop_space_spaces by assumption.
  destruct core as [| c0 core]; [discriminate |].
  injection Hc as ->. cbn [app]. rewrite drop_space_head by assumption.
  change (c :: core ++ ws2) with ((c :: core) ++ ws2).
  rewrite rev_app_distr, drop_space_spaces by now apply all_space_rev.
  destruct (rev (c :: core)) as [| l0 r] eqn:R; [discriminate |].
  injection Hl as ->. rewrite drop_space_head by assumption.
  now rewrite <- R, rev_involutive.
Qed.

Section ParsePositive.
Variable vmax base : N.
Hypothesis base_lo : 2 <= base.
Hypothesis base_fits : base <= vmax.

Lemma digits_value_ge text : forall v, v <= digits_value base text v.
Proof.
  induction text as [| c text IH]; intros v.
  - apply N.le_refl.
  - change (digits_value base (c :: text) v)
      with (digits_value base text (v * base + kAsciiToInt c)).
    specialize (IH (v * base + kAsciiToInt c)). nia.
Qed.

(** [safe_parse_positive_int] succeeds exactly on digits of the base
    whose value fits. *)
Lemma safe_parse_positive_int_Some text : forall v n,
  v <= vmax ->
  (safe_parse_positive_int vmax base text v = Some n
   <-> Forall (fun c => kAsciiToInt c < base) text
       /\ n = digits_value base text v /\ n <= vmax).
Proof.
  induction text as [| c text IH]; intros v n Hv.
  - cbn. split.
    + intros [= <-]. repeat split; [constructor | assumption].
    + intros (_ & -> & _). reflexivity.
  - change (digits_value base (c :: text) v)
      with (digits_value base text (v * base + kAsciiToInt c)).
    cbn [safe_parse_positive_int]. cbv zeta.
    pose proof (digits_value_ge text (v * base + kAsciiToInt c)) as Hmono.
    destruct (N.leb_spec base (kAsciiToInt c)) as [Hd | Hd].
    { split; [discriminate |]. intros (F & _). inversion F; subst. lia. }
    assert (Hdiv : vmax / base * base <= vmax)
      by (rewrite N.mul_comm; apply N.Div0.mul_div_le).
    pose proof (N.div_mod vmax base ltac:(lia)) as Hdm.
    pose proof (N.mod_lt vmax base ltac:(lia)) as Hml.
    destruct (N.ltb_spec (vmax / base) v) as [Hov | Hov].
    { split; [discriminate |]. intros (_ & -> & Hn). nia. }
    destruct (N.ltb_spec (vmax - kAsciiToInt c) (v * base)) as [Hov2 | Hov2].
    { split; [discriminate |]. intros (_ & -> & Hn). lia. }
    rewrite IH by lia. split.
    + intros (F & -> & Hn). repeat split; [now constructor | assumption].
    + intros (F & -> & Hn). inversion F; subst. repeat split; assumption.
Qed.
End ParsePositive.

Lemma hex_digit_eqb c c' :
  kAsciiToInt c < 16 -> 16 <= kAsciiToInt c' -> Ascii.eqb c c' = false.
Proof.
  intros H H'. destruct (Ascii.eqb_spec c c') as [-> | _]; [lia | reflexivity].
Qed.

Lemma uint32_max_base : 16 <= uint32_max.
Proof. discriminate. Qed.

Lemma consume_hex_prefix_inv start body :
  start <> [] ->
  consume_hex_prefix start = Some body ->
  exists marker,
    start = marker ++ body
    /\ (marker = [] \/ marker = lit "0x" \/ marker = lit "0X")
    /\ body <> [].
Proof.
  intros Hne. unfold consume_hex_prefix.
  destruct start as [| c0 [| c1 rest]]; [congruence | |].
  - intros [= <-]. exists []. auto.
  - destruct (Ascii.eqb_spec c0 "0") as [-> | _]; cbn [andb].
    + destruct (Ascii.eqb_spec c1 "x") as [-> | _]; cbn [orb].
      * destruct rest as [| b rest]; [discriminate |]. intros [= <-].
        exists (lit "0x"). repeat split; auto. discriminate.
      * destruct (Ascii.eqb_spec c1 "X") as [-> | _].
        -- destruct rest as [| b rest]; [discriminate |]. intros [= <-].
           exists (lit "0X"). repeat split; auto. discriminate.
        -- intros [= <-]. exists []. auto.
    + intros [= <-]. exists []. auto.
Qed.

Lemma consume_hex_prefix_digits marker body :
  marker = [] \/ marker = lit "0x" \/ marker = lit "0X" ->
  body <> [] -> all_hex_digits body ->
  consume_hex_prefix (marker ++ body) = Some body.
Proof.
  intros Hm Hb F. destruct body as [| b0 body]; [congruence |].
  destruct Hm as [-> | [-> | ->]]; try reflexivity.
  cbn [app]. destruct body as [| b1 body]; [reflexivity |].
  assert (Hb1 : kAsciiToInt b1 < 16)
    by (inversion F as [| ? ? _ F']; inversion F'; assumption).
  unfold consume_hex_prefix.
  rewrite (hex_digit_eqb b1 "x" Hb1), (hex_digit_eqb b1 "X" Hb1)
    by discriminate.
  cbn [orb]. now rewrite andb_false_r.
Qed.

(** A text accepted with value [n] is a hexadecimal numeral of [n]. *)
Lemma SimpleHexAtoi_hex_numeral text n :
  SimpleHexAtoi text = Some n -> hex_numeral text n.
Proof.
  unfold SimpleHexAtoi, safe_parse_sign_and_base16. fold (trimmed text).
  destruct (trimmed_split text) as (ws1 & ws2 & Etext & H1 & H2).
  assert (Hstart : forall sign start,
             trimmed text = sign ++ start ->
             sign = [] \/ sign = lit "+" ->
             start <> [] ->
             match
               match consume_hex_prefix start with
               | Some body => Some (body, false)
               | None => None
               end
             with
             | Some (body, false) =>
                 safe_parse_positive_int uint32_max 16 body 0
             | _ => None
             end = Some n ->
             hex_numeral text n).
  { intros sign start T Hs Hne.
    destruct (consume_hex_prefix start) as [body |] eqn:C; [| discriminate].
    intros P.
    destruct (consume_hex_prefix_inv start body Hne C) as (marker & -> & Hm & Hb).
    apply (safe_parse_positive_int_Some uint32_max 16 ltac:(lia)
             uint32_max_base) in P; [| apply N.le_0_l].
    destruct P as (F & Hn & Hfit).
    exists ws1, sign, marker, body, ws2.
    rewrite Etext at 1. rewrite T, <- !app_assoc. tauto. }
  destruct (trimmed text) as [| c rest] eqn:T; [discriminate |].
  cbv zeta.
  destruct (Ascii.eqb_spec c "-") as [-> | _]; cbn [orb].
  - destruct rest as [| c0 rest]; [discriminate |].
    destruct (consume_hex_prefix (c0 :: rest)); discriminate.
  - destruct (Ascii.eqb_spec c "+") as [-> | _].
    + destruct rest as [| c0 rest]; [discriminate |].
      apply (Hstart (lit "+") (c0 :: rest)); auto. discriminate.
    + apply (Hstart [] (c :: rest)); auto. discriminate.
Qed.

(** A hexadecimal numeral of [n] is accepted with value [n]. *)
Lemma hex_numeral_SimpleHexAtoi text n :
  hex_numeral text n -> SimpleHexAtoi text = Some n.
Proof.
  intros (ws1 & sign & marker & body & ws2 & -> & H1 & H2 & Hs & Hm & Hb & F
          & -> & Hfit).
  assert (P : safe_parse_positive_int uint32_max 16 body 0
              = Some (digits_value 16 body 0)).
  { apply (safe_parse_positive_int_Some uint32_max 16 ltac:(lia)
             uint32_max_base); [apply N.le_0_l | tauto]. }
  pose proof (consume_hex_prefix_digits marker body Hm Hb F) as C.
  destruct (exists_last Hb) as (body' & l & Ebody).
  assert (Hl : ascii_isspace l = false).
  { apply hex_digit_not_space. unfold all_hex_digits in F.
    rewrite Forall_forall in F. apply F. rewrite Ebody.
    apply in_or_app. right. now left. }
  assert (Hstart : exists c0 rest0,
             marker ++ body = c0 :: rest0
             /\ ascii_isspace c0 = false
             /\ Ascii.eqb c0 "-" = false /\ Ascii.eqb c0 "+" = false).
  { destruct Hm as [-> | [-> | ->]];
      [| exists "0"%char; eexists; repeat split; reflexivity ..].
    destruct body as [| b0 body0]; [congruence |].
    assert (Hb0 : kAsciiToInt b0 < 16) by (inversion F; assumption).
    exists b0, body0. repeat split.
    - now apply hex_digit_not_space.
    - now apply hex_digit_eqb.
    - now apply hex_digit_eqb. }
  destruct Hstart as (c0 & rest0 & Estart & Hsp & Hminus & Hplus).
  assert (T : trimmed (ws1 ++ sign ++ marker ++ body ++ ws2)
              = sign ++ marker ++ body).
  { replace (ws1 ++ sign ++ marker ++ body ++ ws2)
      with (ws1 ++ (sign ++ marker ++ body) ++ ws2)
      by (now rewrite <- !app_assoc).
    assert (Hc : exists c, hd_error (sign ++ marker ++ body) = Some c
                           /\ ascii_isspace c = false).
    { destruct Hs as [-> | ->]; [| now exists "+"%char].
      exists c0. cbn [app]. now rewrite Estart. }
    destruct Hc as (c & Hc & Hcs).
    apply (trimmed_core _ _ _ c l); try assumption.
    rewrite Ebody, !app_assoc, rev_app_distr. reflexivity. }
  unfold SimpleHexAtoi, safe_parse_sign_and_base16.
  fold (trimmed (ws1 ++ sign ++ marker ++ body ++ ws2)).
  rewrite T. destruct Hs as [-> | ->].
  - cbn [app]. rewrite Estart. cbv zeta. rewrite Hminus, Hplus. cbn [orb].
    rewrite <- Estart, C. exact P.
  - cbn [app lit list_ascii_of_string]. cbv zeta.
    replace (Ascii.eqb "+" "-") with false by reflexivity.
    replace (Ascii.eqb "+" "+") with true by reflexivity.
    cbn [orb]. rewrite Estart, <- Estart, C. exact P.
Qed.

(** [absl::SimpleHexAtoi] accepts the hexadecimal numerals of 32-bit
    values, and returns the value. *)
Lemma SimpleHexAtoi_iff text n :
  SimpleHexAtoi text = Some n <-> hex_numeral text n.
Proof.
  split; [apply SimpleHexAtoi_hex_numeral | apply hex_numeral_SimpleHexAtoi].
Qed.

Lemma SimpleHexAtoi_None text :
  SimpleHexAtoi text = None <-> forall n, ~ hex_numeral text n.
Proof.
  split.
  - intros E n H. apply hex_numeral_SimpleHexAtoi in H. congruence.
  - intros H. destruct (SimpleHexAtoi text) as [n |] eqn:E; [| reflexivity].
    apply SimpleHexAtoi_hex_numeral in E. now apply H in E.
Qed.

(** ** The reader *)

Lemma fold_left_filter {A : Type} (p : A -> bool) (l : list A) init :
  fold_left (fun acc x => if p x then acc ++ [x] else acc) l init
  = init ++ filter p l.
Proof.
  revert init. induction l as [| x l IH]; intros init; cbn [fold_left filter].
  - now rewrite app_nil_r.
  - rewrite IH. destruct (p x); [now rewrite <- app_assoc | reflexivity].
Qed.

Section Reader.
Variable table_name : str.

Lemma StripTableName_Ok key :
  StartsWith key (TablePrefix table_name) = true ->
  StripTableName table_name key = Ok (group_id_text table_name key).
Proof. intros H. unfold StripTableName. cbv zeta. now rewrite H. Qed.

Lemma StripTableName_Err key :
  StartsWith key (TablePrefix table_name) = false ->
  StripTableName table_name key
  = InvalidArgumentError
      (lit "Invalid packet replication App DB key " ++ key).
Proof. intros H. unfold StripTableName. cbv zeta. now rewrite H. Qed.

Lemma keys_filter p4rt_table :
  GetAllPacketReplicationTableEntryKeys table_name p4rt_table
  = filter (fun key => StartsWith key (TablePrefix table_name))
      (keys (app_db p4rt_table)).
Proof.
  unfold GetAllPacketReplicationTableEntryKeys.
  now rewrite (fold_left_filter
                 (fun key => StartsWith key (TablePrefix table_name))).
Qed.

Lemma ParseReplica_cases field :
  (rejected_field field
   /\ exists msg, ParseReplica field = InvalidArgumentError msg)
  \/ (~ rejected_field field /\ exists r, ParseReplica field = Ok r).
Proof.
  unfold ParseReplica, rejected_field.
  destruct (rfind ":" field) as [i |].
  - destruct (SimpleHexAtoi (substr_from field (i + 1))) as [n |].
    + right. split; [discriminate | eauto].
    + left. split; [reflexivity | eauto].
  - left. split; [exact I | eauto].
Qed.

Lemma BuildReplicas_cases kfvs : forall acc,
  ((exists kfv, In kfv kfvs /\ rejected_field (fst kfv))
   /\ exists msg, BuildReplicas kfvs acc = InvalidArgumentError msg)
  \/ exists rs,
       BuildReplicas kfvs acc = Ok (acc ++ rs)
       /\ Forall2 (fun kfv r => ParseReplica (fst kfv) = Ok r) kfvs rs.
Proof.
  induction kfvs as [| kfv kfvs IH]; intros acc.
  - right. exists []. split; [simpl; now rewrite app_nil_r | constructor].
  - cbn [BuildReplicas].
    destruct (ParseReplica_cases (fst kfv))
      as [[Hbad (msg & E)] | [_ (r & E)]]; rewrite E.
    + left. split; [exists kfv; split; [now left | assumption] |].
      exists msg. reflexivity.
    + cbn [bind].
      destruct (IH (acc ++ [r])) as [[(bad & Hin & Hbad) Herr] | (rs & E' & F)].
      * left. split; [exists bad; split; [now right | assumption] |].
        exact Herr.
      * right. exists (r :: rs). split.
        -- rewrite E', <- app_assoc. reflexivity.
        -- now constructor.
Qed.

Lemma Forall2_no_rejected (kfvs : list (str * str)) rs :
  Forall2 (fun kfv r => ParseReplica (fst kfv) = Ok r) kfvs rs ->
  forall kfv, In kfv kfvs -> ~ rejected_field (fst kfv).
Proof.
  induction 1 as [| kfv r kfvs rs E _ IH]; intros x [].
  - subst x.
    destruct (ParseReplica_cases (fst kfv)) as [[_ (msg & E')] | [H _]];
      [rewrite E in E'; discriminate E' | assumption].
  - now apply IH.
Qed.

Variable p4rt_table : P4rtTable.

(** The key loop either fails with an invalid-argument status at a
    malformed key, or adds the entry of each key, in order. *)
Lemma ReadEntries_cases ks : forall acc,
  Forall (fun key => StartsWith key (TablePrefix table_name) = true) ks ->
  ((exists key, In key ks /\ rejected_key table_name p4rt_table key)
   /\ exists msg,
        ReadEntries table_name p4rt_table ks acc = InvalidArgumentError msg)
  \/ exists entries,
       ReadEntries table_name p4rt_table ks acc = Ok (acc ++ entries)
       /\ Forall2 (entry_of_key table_name p4rt_table) ks entries.
Proof.
  induction ks as [| key ks IH]; intros acc Hpre.
  - right. exists []. split; [simpl; now rewrite app_nil_r | constructor].
  - apply Forall_cons_iff in Hpre. destruct Hpre as [Hkey Hpre].
    cbn [ReadEntries]. rewrite (StripTableName_Ok key Hkey). cbn [bind].
    destruct (SimpleHexAtoi (group_id_text table_name key)) as [g |] eqn:G.
    + destruct (BuildReplicas_cases (get (app_db p4rt_table) key) [])
        as [[Hbad (msg & E)] | (rs & E & F)]; rewrite E.
      * left. split; [| exists msg; reflexivity].
        exists key. split; [now left | now right].
      * cbn [bind app].
        destruct (IH (acc ++ [mk_entry g rs]) Hpre)
          as [[(bad & Hin & Hbad) Herr] | (entries & E' & F')].
        -- left. split; [| exact Herr].
           exists bad. split; [now right | assumption].
        -- right. exists (mk_entry g rs :: entries). split.
           ++ unfold mk_entry in E'. rewrite E', <- app_assoc. reflexivity.
           ++ constructor; [| assumption].
              unfold entry_of_key. cbn. auto.
    + left. split; [| eexists; reflexivity].
      exists key. split; [now left | now left].
Qed.

Lemma keys_prefixed :
  Forall (fun key => StartsWith key (TablePrefix table_name) = true)
    (GetAllPacketReplicationTableEntryKeys table_name p4rt_table).
Proof.
  rewrite keys_filter. apply Forall_forall. intros key Hin.
  now apply filter_In in Hin.
Qed.

Lemma entry_of_key_not_rejected key entry :
  entry_of_key table_name p4rt_table key entry ->
  ~ rejected_key table_name p4rt_table key.
Proof.
  intros (_ & G & F) [Hbad | (kfv & Hin & Hbad)].
  - congruence.
  - now apply (Forall2_no_rejected _ _ F kfv Hin).
Qed.

Lemma Forall2_In_l {A B : Type} (R : A -> B -> Prop) l l' a :
  Forall2 R l l' -> In a l -> exists b, In b l' /\ R a b.
Proof.
  induction 1 as [| x y l l' Hxy _ IH]; intros [].
  - subst. exists y. split; [now left | assumption].
  - destruct IH as (b & Hb & Hab); [assumption |].
    exists b. split; [now right | assumption].
Qed.

Lemma Forall2_In_r {A B : Type} (R : A -> B -> Prop) l l' b :
  Forall2 R l l' -> In b l' -> exists a, In a l /\ R a b.
Proof.
  induction 1 as [| x y l l' Hxy _ IH]; intros [].
  - subst. exists x. split; [now left | assumption].
  - destruct IH as (a & Ha & Hab); [assumption |].
    exists a. split; [now right | assumption].
Qed.

Lemma malformed_field_rejected field :
  malformed_field field <-> rejected_field field.
Proof.
  unfold malformed_field, rejected_field.
  destruct (rfind ":" field); [| reflexivity].
  symmetry. apply SimpleHexAtoi_None.
Qed.

Lemma malformed_key_rejected key :
  malformed_key table_name p4rt_table key
  <-> rejected_key table_name p4rt_table key.
Proof.
  unfold malformed_key, rejected_key. rewrite SimpleHexAtoi_None.
  split; intros [H | (kfv & Hin & H)]; auto; right; exists kfv;
    (split; [assumption | now apply malformed_field_rejected]).
Qed.

(** C6.  If a key under the table prefix has a text after the prefix that
    is not a hexadecimal numeral of a 32-bit value, or has a field name
    without [':'] or whose text after its last [':'] is not such a numeral,
    then reading all entries returns an invalid-argument status, and so no
    vector of entries, not even a partial one. *)
Theorem read_fails_on_malformed_key (key : str) :
  In key (keys (app_db p4rt_table)) ->
  StartsWith key (TablePrefix table_name) = true ->
  malformed_key table_name p4rt_table key ->
  (exists msg,
      GetAllAppDbPacketReplicationTableEntries table_name p4rt_table
      = InvalidArgumentError msg)
  /\ forall entries,
       GetAllAppDbPacketReplicationTableEntries table_name p4rt_table
       <> Ok entries.
Proof.
  intros Hin Hpre Hbad. apply malformed_key_rejected in Hbad.
  assert (Herr : exists msg,
             GetAllAppDbPacketReplicationTableEntries table_name p4rt_table
             = InvalidArgumentError msg).
  { unfold GetAllAppDbPacketReplicationTableEntries. cbv zeta.
    destruct (ReadEntries_cases
                (GetAllPacketReplicationTableEntryKeys table_name p4rt_table)
                [] keys_prefixed)
      as [[_ Herr] | (entries & _ & F)]; [exact Herr |].
    exfalso.
    assert (Hin' : In key
              (GetAllPacketReplicationTableEntryKeys table_name p4rt_table))
      by (rewrite keys_filter; apply filter_In; now split).
    destruct (Forall2_In_l _ _ _ _ F Hin') as (entry & _ & Hentry).
    now apply (entry_of_key_not_rejected key entry). }
  split; [exact Herr |].
  destruct Herr as (msg & E). intros entries. rewrite E. discriminate.
Qed.
End Reader.

Lemma read_fails_on_malformed_key_witness :
  let table :=
    mk_table
      [(lit "REPLICATION_IP_MULTICAST_TABLE:a",
        [(lit "Ethernet0:0x0", lit "replica")]);
       (lit "REPLICATION_IP_MULTICAST_TABLE:b",
        [(lit "Ethernet4:0x1", lit "replica");
         (lit "Ethernet8:zz", lit "replica")])] in
  (exists msg,
      GetAllAppDbPacketReplicationTableEntries swss_table_name table
      = InvalidArgumentError msg)
  /\ forall entries,
       GetAllAppDbPacketReplicationTableEntries swss_table_name table
       <> Ok entries.
Proof.
  intros table.
  apply (read_fails_on_malformed_key swss_table_name table
           (lit "REPLICATION_IP_MULTICAST_TABLE:b")).
  - simpl. tauto.
  - reflexivity.
  - apply malformed_key_rejected. right.
    exists (lit "Ethernet8:zz", lit "replica").
    split; [simpl; tauto | reflexivity].
Defined.

(** What [absl::SimpleHexAtoi] accepts and what it does not. *)
Example SimpleHexAtoi_samples :
  SimpleHexAtoi (lit "a") = Some 10
  /\ SimpleHexAtoi (lit "0x1F") = Some 31
  /\ SimpleHexAtoi (lit "ffffffff") = Some 4294967295
  /\ SimpleHexAtoi (lit "") = None
  /\ SimpleHexAtoi (lit "0x") = None
  /\ SimpleHexAtoi (lit "zz") = None
  /\ SimpleHexAtoi (lit "-1") = None
  /\ SimpleHexAtoi (lit "100000000") = None.
Proof. repeat split. Qed.

(** ** Keys of other tables *)

Lemma ReadEntries_same_get table_name (t t' : P4rtTable) ks :
  (forall key, get (app_db t) key = get (app_db t') key) ->
  forall acc,
    ReadEntries table_name t ks acc = ReadEntries table_name t' ks acc.
Proof.
  intros Hget. induction ks as [| key ks IH]; intros acc; cbn [ReadEntries].
  - reflexivity.
  - destruct (StripTableName table_name key) as [text | st]; cbn [bind];
      [| reflexivity].
    destruct (SimpleHexAtoi text); [| reflexivity].
    rewrite <- Hget.
    destruct (BuildReplicas (get (app_db t) key) []); cbn [bind];
      [apply IH | reflexivity].
Qed.

(** C4, as the code has it.  A key that does not start with the table
    prefix belongs to another table and is passed over:
    [StripTableName] fails on it with an invalid-argument status, but the
    reader never hands it such a key, and reading all entries returns what it
    returns for the table without that key. *)
Theorem read_skips_foreign_key (table_name : str) (p4rt_table : P4rtTable)
    (pre post : list str) (key : str) :
  keys (app_db p4rt_table) = pre ++ key :: post ->
  StartsWith key (TablePrefix table_name) = false ->
  StripTableName table_name key
  = InvalidArgumentError (lit "Invalid packet replication App DB key " ++ key)
  /\ ~ In key (GetAllPacketReplicationTableEntryKeys table_name
                 (with_keys p4rt_table (pre ++ post)))
  /\ GetAllAppDbPacketReplicationTableEntries table_name p4rt_table
     = GetAllAppDbPacketReplicationTableEntries table_name
         (with_keys p4rt_table (pre ++ post)).
Proof.
  intros Hkeys Hforeign. split; [now apply StripTableName_Err |]. split.
  - rewrite keys_filter. intros Hin. apply filter_In in Hin.
    destruct Hin as [_ Hin]. congruence.
  - unfold GetAllAppDbPacketReplicationTableEntries. cbv zeta.
    rewrite !keys_filter. cbn [with_keys app_db keys].
    rewrite Hkeys, !filter_app. cbn [filter]. rewrite Hforeign.
    now apply ReadEntries_same_get.
Qed.

Lemma read_skips_foreign_key_witness :
  let fields := [(lit "Ethernet0:0x0", lit "replica")] in
  let table :=
    mk_table
      [(lit "wrongtable:a", fields);
       (lit "REPLICATION_IP_MULTICAST_TABLE:b", fields)] in
  GetAllAppDbPacketReplicationTableEntries swss_table_name table
  = GetAllAppDbPacketReplicationTableEntries swss_table_name
      (with_keys table [lit "REPLICATION_IP_MULTICAST_TABLE:b"]).
Proof.
  intros fields table.
  apply (read_skips_foreign_key swss_table_name table []
           [lit "REPLICATION_IP_MULTICAST_TABLE:b"] (lit "wrongtable:a")).
  - reflexivity.
  - reflexivity.
Defined.

(** C4 as stated fails: a table whose only key is ["wrongtable:a"] is read
    without error, as the empty vector. *)
Lemma read_accepts_wrongtable_key :
  let table := mk_table [(lit "wrongtable:a", [])] in
  In (lit "wrongtable:a") (keys (app_db table))
  /\ StartsWith (lit "wrongtable:a") (TablePrefix swss_table_name) = false
  /\ GetAllAppDbPacketReplicationTableEntries swss_table_name table = Ok [].
Proof. repeat split. simpl. tauto. Qed.

(** ** Replicas read twice *)

Lemma Forall2_written_fields (kfvs : list (str * str)) rs :
  (forall kfv, In kfv kfvs ->
     exists r, instance r < 2 ^ 32 /\ fst kfv = port_instance r) ->
  Forall2 (fun kfv r => ParseReplica (fst kfv) = Ok r) kfvs rs ->
  map fst kfvs = map port_instance rs.
Proof.
  intros Hwritten F. induction F as [| kfv r kfvs rs E _ IH]; cbn [map].
  - reflexivity.
  - destruct (Hwritten kfv (or_introl eq_refl)) as (r0 & Hr0 & E0).
    rewrite E0, (ParseReplica_port_instance r0 Hr0) in E.
    injection E as <-. rewrite E0. f_equal. apply IH.
    intros x Hx. apply Hwritten. now right.
Qed.

(** C5, as the code has it.  The reader keeps one replica per field, in
    the order of the fields, and removes nothing: when the field names of
    every key under the table prefix are pairwise distinct and are names
    that [CreateEntryForInsert] writes for 32-bit instances, no entry read
    has two replicas with the same port and instance. *)
Theorem read_written_fields_no_duplicates (table_name : str)
    (p4rt_table : P4rtTable) (entries : list IrPacketReplicationEngineEntry) :
  (forall key,
      In key (keys (app_db p4rt_table)) ->
      StartsWith key (TablePrefix table_name) = true ->
      written_fields (get (app_db p4rt_table) key)) ->
  GetAllAppDbPacketReplicationTableEntries table_name p4rt_table = Ok entries ->
  forall entry,
    In entry entries -> NoDup (replicas (multicast_group_entry entry)).
Proof.
  intros Hwritten Hread entry Hin.
  unfold GetAllAppDbPacketReplicationTableEntries in Hread. cbv zeta in Hread.
  destruct (ReadEntries_cases table_name p4rt_table
              (GetAllPacketReplicationTableEntryKeys table_name p4rt_table)
              [] (keys_prefixed table_name p4rt_table))
    as [[_ (msg & E)] | (entries' & E & F)].
  - rewrite E in Hread. discriminate Hread.
  - rewrite E in Hread. injection Hread as <-.
    destruct (Forall2_In_r _ _ _ _ F Hin) as (key & Hkey & Hpre & _ & Hfields).
    rewrite keys_filter in Hkey. apply filter_In in Hkey.
    destruct (Hwritten key (proj1 Hkey) Hpre) as [Hnodup Hnames].
    rewrite (Forall2_written_fields _ _ Hnames Hfields) in Hnodup.
    now apply NoDup_map_inv in Hnodup.
Qed.

Lemma read_written_fields_no_duplicates_witness :
  let fields :=
    [(lit "Ethernet0:0x0", lit "replica");
     (lit "Ethernet4:0x1", lit "replica")] in
  let table := mk_table [(lit "REPLICATION_IP_MULTICAST_TABLE:a", fields)] in
  let entry := mk_entry 10 [mk_replica "Ethernet0" 0; mk_replica "Ethernet4" 1] in
  GetAllAppDbPacketReplicationTableEntries swss_table_name table = Ok [entry]
  /\ NoDup (replicas (multicast_group_entry entry)).
Proof.
  intros fields table entry. split; [reflexivity |].
  apply (read_written_fields_no_duplicates swss_table_name table [entry]).
  - intros key [<- | []] _. split.
    + repeat constructor; simpl; intuition discriminate.
    + intros kfv [<- | [<- | []]].
      * exists (mk_replica "Ethernet0" 0). split; reflexivity.
      * exists (mk_replica "Ethernet4" 1). split; reflexivity.
  - reflexivity.
  - now left.
Defined.

(** C5 as stated fails: two distinct field names of one key that the
    reader accepts are read as the same replica twice. *)
Lemma read_keeps_duplicate_replicas :
  let fields :=
    [(lit "Ethernet0:0x1", lit "replica");
     (lit "Ethernet0:0x01", lit "replica")] in
  let table := mk_table [(lit "REPLICATION_IP_MULTICAST_TABLE:a", fields)] in
  let entry := mk_entry 10 [mk_replica "Ethernet0" 1; mk_replica "Ethernet0" 1] in
  NoDup (map fst fields)
  /\ GetAllAppDbPacketReplicationTableEntries swss_table_name table
     = Ok [entry]
  /\ ~ NoDup (replicas (multicast_group_entry entry)).
Proof.
  intros fields table entry. split; [| split].
  - repeat constructor; simpl; intuition discriminate.
  - reflexivity.
  - intros H. apply NoDup_cons_iff in H. destruct H as [H _].
    apply H. now left.
Qed.

(** ** The serializer *)

Section Serializer.
Variable table_name : str.
Variable IrMulticastGroupEntryToAppDbKey : IrMulticastGroupEntry -> str.
Variable p4rt_table : P4rtTable.

Lemma CreateEntryForInsert_fields entry p4rt_inserts :
  CreateEntryForInsert table_name IrMulticastGroupEntryToAppDbKey
    entry p4rt_inserts
  = (GetRedisPacketReplicationTableKey table_name
       IrMulticastGroupEntryToAppDbKey entry,
     p4rt_inserts ++
     [{| kfvKey :=
           GetRedisPacketReplicationTableKey table_name
             IrMulticastGroupEntryToAppDbKey entry;
         kfvOp := lit "SET";
         kfvFieldsValues :=
           map (fun r => (port_instance r, lit "replica"))
             (replicas (multicast_group_entry entry)) |}]).
Proof.
  unfold CreateEntryForInsert. cbv zeta.
  now rewrite (fold_left_push (fun r => (port_instance r, lit "replica"))).
Qed.

(** C7.  For every entry, [MODIFY] returns the same key and leaves the
    same [kfv_updates] as [INSERT]: the vector with one more tuple, whose
    key is the entry's key, whose operation is ["SET"] and whose fields are
    the field names of all replicas of the entry, each with the value
    ["replica"]. *)
Theorem modify_is_insert (entry : IrPacketReplicationEngineEntry)
    (kfv_updates : list KeyOpFieldsValuesTuple) :
  let key :=
    GetRedisPacketReplicationTableKey table_name
      IrMulticastGroupEntryToAppDbKey entry in
  let set :=
    {| kfvKey := key;
       kfvOp := lit "SET";
       kfvFieldsValues :=
         map (fun r => (port_instance r, lit "replica"))
           (replicas (multicast_group_entry entry)) |} in
  CreatePacketReplicationTableUpdateForAppDb table_name
    IrMulticastGroupEntryToAppDbKey p4rt_table MODIFY entry kfv_updates
  = CreatePacketReplicationTableUpdateForAppDb table_name
      IrMulticastGroupEntryToAppDbKey p4rt_table INSERT entry kfv_updates
  /\ CreatePacketReplicationTableUpdateForAppDb table_name
       IrMulticastGroupEntryToAppDbKey p4rt_table INSERT entry kfv_updates
     = (Ok key, kfv_updates ++ [set]).
Proof.
  intros key set. split; [reflexivity |].
  unfold CreatePacketReplicationTableUpdateForAppDb. cbn [Z.eqb INSERT orb].
  now rewrite CreateEntryForInsert_fields.
Qed.

(** C8.  For every update type other than [INSERT], [MODIFY] and
    [DELETE], the status returned is the invalid-argument error
    "Unsupported update type: <type>", and [kfv_updates] is as it was
    before the call. *)
Theorem unsupported_update_type (update_type : Update_Type)
    (entry : IrPacketReplicationEngineEntry)
    (kfv_updates : list KeyOpFieldsValuesTuple) :
  update_type <> INSERT -> update_type <> MODIFY -> update_type <> DELETE ->
  CreatePacketReplicationTableUpdateForAppDb table_name
    IrMulticastGroupEntryToAppDbKey p4rt_table update_type entry kfv_updates
  = (InvalidArgumentError
       (lit "Unsupported update type: " ++ DecZ update_type),
     kfv_updates).
Proof.
  intros Hi Hm Hd. unfold CreatePacketReplicationTableUpdateForAppDb.
  apply Z.eqb_neq in Hi, Hm, Hd. now rewrite Hi, Hm, Hd.
Qed.
End Serializer.

Lemma unsupported_update_type_witness :
  let entry := mk_entry 10 [mk_replica "Ethernet0" 0] in
  let table := mk_table [] in
  let earlier :=
    [{| kfvKey := lit "REPLICATION_IP_MULTICAST_TABLE:1";
        kfvOp := lit "DEL"; kfvFieldsValues := [] |}] in
  CreatePacketReplicationTableUpdateForAppDb swss_table_name
    (fun e => Hex (multicast_group_id e)) table UNSPECIFIED entry earlier
  = (InvalidArgumentError (lit "Unsupported update type: 0"), earlier).
Proof.
  intros entry table earlier.
  apply (unsupported_update_type swss_table_name
           (fun e => Hex (multicast_group_id e)) table UNSPECIFIED entry earlier);
    discriminate.
Defined.

(** * Further properties of the translation unit *)

(** ** The serializer: keys, tuples and field names *)

Lemma Hex_inj n m : Hex n = Hex m -> n = m.
Proof. apply digits_inj; lia. Qed.

(** Distinct replicas have distinct field names. *)
Lemma port_instance_inj r1 r2 : port_instance r1 = port_instance r2 -> r1 = r2.
Proof.
  destruct r1 as [p1 i1], r2 as [p2 i2]. rewrite !port_instance_split.
  cbn [port instance]. intros E.
  apply split_last_unique in E; try apply no_colon_after_split.
  destruct E as [-> E]. apply app_inv_head in E. apply Hex_inj in E.
  now subst.
Qed.

Lemma NoDup_map_inj_iff {A B : Type} (f : A -> B) (l : list A) :
  (forall x y, f x = f y -> x = y) -> (NoDup (map f l) <-> NoDup l).
Proof.
  intros Hinj. split.
  - apply NoDup_map_inv.
  - apply NoDup_map_NoDup_ForallPairs. intros x y _ _. apply Hinj.
Qed.

Section SerializerTuples.
Variable table_name : str.
Variable IrMulticastGroupEntryToAppDbKey : IrMulticastGroupEntry -> str.
Variable p4rt_table : P4rtTable.

(** The key of an entry starts with the table prefix, and
    [StripTableName] gives back the key body exactly. *)
Theorem key_round_trip (entry : IrPacketReplicationEngineEntry) :
  let key :=
    GetRedisPacketReplicationTableKey table_name
      IrMulticastGroupEntryToAppDbKey entry in
  StartsWith key (TablePrefix table_name) = true
  /\ StripTableName table_name key
     = Ok (IrMulticastGroupEntryToAppDbKey (multicast_group_entry entry)).
Proof.
  intros key. subst key. unfold GetRedisPacketReplicationTableKey.
  split; [apply StartsWith_app |].
  unfold StripTableName. cbv zeta. rewrite StartsWith_app. cbn [negb].
  now rewrite substr_from_suffix.
Qed.

(** [StripTableName] succeeds exactly on the keys that are the table
    prefix followed by some text, and returns that text; on every other key
    it returns an invalid-argument status naming the key. *)
Theorem StripTableName_spec (app_db_key : str) :
  (forall body,
      StripTableName table_name app_db_key = Ok body
      <-> app_db_key = TablePrefix table_name ++ body)
  /\ ((forall body, app_db_key <> TablePrefix table_name ++ body) ->
      StripTableName table_name app_db_key
      = InvalidArgumentError
          (lit "Invalid packet replication App DB key " ++ app_db_key)).
Proof.
  split.
  - intros body. unfold StripTableName. cbv zeta.
    destruct (StartsWith app_db_key (TablePrefix table_name)) eqn:S;
      cbn [negb].
    + apply StartsWith_inv in S. destruct S as [rest ->].
      rewrite substr_from_suffix. split.
      * now intros [= ->].
      * intros E. apply app_inv_head in E. now subst.
    + split; [discriminate |]. intros ->.
      now rewrite StartsWith_app in S.
  - intros Hno. apply StripTableName_Err.
    destruct (StartsWith app_db_key (TablePrefix table_name)) eqn:S;
      [| reflexivity].
    apply StartsWith_inv in S. destruct S as [rest ->].
    now destruct (Hno rest).
Qed.

(** The field names of the tuple written for an entry are those of its
    replicas, in order; they are pairwise distinct exactly when the replicas
    are. *)
Theorem insert_field_names (entry : IrPacketReplicationEngineEntry)
    (p4rt_inserts : list KeyOpFieldsValuesTuple) :
  exists key_value,
    snd (CreateEntryForInsert table_name IrMulticastGroupEntryToAppDbKey
           entry p4rt_inserts)
    = p4rt_inserts ++ [key_value]
    /\ map fst (kfvFieldsValues key_value)
       = map port_instance (replicas (multicast_group_entry entry))
    /\ (NoDup (map fst (kfvFieldsValues key_value))
        <-> NoDup (replicas (multicast_group_entry entry))).
Proof.
  rewrite CreateEntryForInsert_fields. cbn [snd].
  eexists. split; [reflexivity |]. cbn [kfvFieldsValues].
  rewrite map_map. cbn [fst]. split; [reflexivity |].
  apply NoDup_map_inj_iff. apply port_instance_inj.
Qed.

(** [DELETE] returns the key that [INSERT] returns for the same entry and
    adds one ["DEL"] tuple at that key, without fields, after the tuples
    already there. *)
Theorem delete_tuple (entry : IrPacketReplicationEngineEntry)
    (kfv_updates : list KeyOpFieldsValuesTuple) :
  let key :=
    GetRedisPacketReplicationTableKey table_name
      IrMulticastGroupEntryToAppDbKey entry in
  CreatePacketReplicationTableUpdateForAppDb table_name
    IrMulticastGroupEntryToAppDbKey p4rt_table DELETE entry kfv_updates
  = (Ok key,
     kfv_updates
     ++ [{| kfvKey := key; kfvOp := lit "DEL"; kfvFieldsValues := [] |}])
  /\ fst (CreatePacketReplicationTableUpdateForAppDb table_name
            IrMulticastGroupEntryToAppDbKey p4rt_table INSERT entry
            kfv_updates)
     = Ok key.
Proof.
  intros key. split.
  - reflexivity.
  - unfold CreatePacketReplicationTableUpdateForAppDb.
    cbn [Z.eqb INSERT orb]. now rewrite CreateEntryForInsert_fields.
Qed.

(** Whenever the serializer returns a key, the update type is one of
    [INSERT], [MODIFY] and [DELETE], the key is the entry's key, and
    [kfv_updates] has grown by exactly one tuple, at that key, after the
    tuples already there. *)
Theorem update_adds_one_tuple (update_type : Update_Type)
    (entry : IrPacketReplicationEngineEntry)
    (kfv_updates : list KeyOpFieldsValuesTuple) (update_key : str) :
  fst (CreatePacketReplicationTableUpdateForAppDb table_name
         IrMulticastGroupEntryToAppDbKey p4rt_table update_type entry
         kfv_updates)
  = Ok update_key ->
  (update_type = INSERT \/ update_type = MODIFY \/ update_type = DELETE)
  /\ update_key
     = GetRedisPacketReplicationTableKey table_name
         IrMulticastGroupEntryToAppDbKey entry
  /\ exists key_value,
       snd (CreatePacketReplicationTableUpdateForAppDb table_name
              IrMulticastGroupEntryToAppDbKey p4rt_table update_type entry
              kfv_updates)
       = kfv_updates ++ [key_value]
       /\ kfvKey key_value = update_key
       /\ (kfvOp key_value = lit "SET" \/ kfvOp key_value = lit "DEL").
Proof.
  unfold CreatePacketReplicationTableUpdateForAppDb.
  destruct (Z.eqb_spec update_type INSERT) as [-> | Hi]; cbn [orb].
  - rewrite CreateEntryForInsert_fields. cbn [fst snd]. intros [= <-].
    split; [auto |]. split; [reflexivity |].
    eexists. split; [reflexivity |]. cbn. auto.
  - destruct (Z.eqb_spec update_type MODIFY) as [-> | Hm].
    + rewrite CreateEntryForInsert_fields. cbn [fst snd]. intros [= <-].
      split; [auto |]. split; [reflexivity |].
      eexists. split; [reflexivity |]. cbn. auto.
    + destruct (Z.eqb_spec update_type DELETE) as [-> | Hd].
      * cbn [CreateEntryForDelete fst snd]. intros [= <-].
        split; [auto |]. split; [reflexivity |].
        eexists. split; [reflexivity |]. cbn. auto.
      * discriminate.
Qed.
End SerializerTuples.

Lemma update_adds_one_tuple_witness :
  let entry := mk_entry 10 [mk_replica "Ethernet0" 0] in
  let key_fn := fun e => Hex (multicast_group_id e) in
  exists key_value,
    snd (CreatePacketReplicationTableUpdateForAppDb swss_table_name key_fn
           (mk_table []) DELETE entry [])
    = [] ++ [key_value]
    /\ kfvKey key_value = lit "REPLICATION_IP_MULTICAST_TABLE:a"
    /\ (kfvOp key_value = lit "SET" \/ kfvOp key_value = lit "DEL").
Proof.
  intros entry key_fn.
  exact (proj2 (proj2 (update_adds_one_tuple swss_table_name key_fn
                         (mk_table []) DELETE entry []
                         (lit "REPLICATION_IP_MULTICAST_TABLE:a") eq_refl))).
Defined.

Lemma StripTableName_spec_witness :
  StripTableName swss_table_name (lit "wrongtable:a")
  = InvalidArgumentError
      (lit "Invalid packet replication App DB key wrongtable:a").
Proof.
  apply (proj2 (StripTableName_spec swss_table_name (lit "wrongtable:a"))).
  intros body E. discriminate E.
Defined.

(** ** The reader: what is read, and when *)

Lemma BuildReplicas_written (value : str) rs : forall acc,
  (forall r, In r rs -> instance r < 2 ^ 32) ->
  BuildReplicas (map (fun r => (port_instance r, value)) rs) acc
  = Ok (acc ++ rs).
Proof.
  induction rs as [| r rs IH]; intros acc Hrs; cbn [map BuildReplicas].
  - now rewrite app_nil_r.
  - cbn [fst]. rewrite ParseReplica_port_instance by (apply Hrs; now left).
    cbn [bind]. rewrite IH by (intros x Hx; apply Hrs; now right).
    now rewrite <- app_assoc.
Qed.

Lemma BuildReplicas_names kfvs : forall kfvs' acc,
  map fst kfvs = map fst kfvs' ->
  BuildReplicas kfvs acc = BuildReplicas kfvs' acc.
Proof.
  induction kfvs as [| kfv kfvs IH]; intros [| kfv' kfvs'] acc E;
    try discriminate; [reflexivity |].
  cbn [map] in E. injection E as E1 E2. cbn [BuildReplicas]. rewrite E1.
  destruct (ParseReplica (fst kfv')); cbn [bind]; [now apply IH | reflexivity].
Qed.

Lemma BuildReplicas_app kfvs1 kfvs2 : forall acc acc',
  BuildReplicas kfvs1 acc = Ok acc' ->
  BuildReplicas (kfvs1 ++ kfvs2) acc = BuildReplicas kfvs2 acc'.
Proof.
  induction kfvs1 as [| kfv kfvs1 IH]; intros acc acc'; cbn [app BuildReplicas].
  - now intros [= ->].
  - destruct (ParseReplica (fst kfv)); cbn [bind]; [apply IH | discriminate].
Qed.

Lemma ReadEntries_app table_name p4rt_table ks1 ks2 : forall acc acc',
  ReadEntries table_name p4rt_table ks1 acc = Ok acc' ->
  ReadEntries table_name p4rt_table (ks1 ++ ks2) acc
  = ReadEntries table_name p4rt_table ks2 acc'.
Proof.
  induction ks1 as [| key ks1 IH]; intros acc acc'; cbn [app ReadEntries].
  - now intros [= ->].
  - destruct (StripTableName table_name key) as [text |]; cbn [bind];
      [| discriminate].
    destruct (SimpleHexAtoi text); [| discriminate].
    destruct (BuildReplicas (get (app_db p4rt_table) key) []); cbn [bind];
      [apply IH | discriminate].
Qed.

(** After an optional ["0x"], digits only: the result is that of the
    digit loop, with its overflow checks. *)
Lemma SimpleHexAtoi_marked marker body :
  marker = [] \/ marker = lit "0x" \/ marker = lit "0X" ->
  body <> [] -> all_hex_digits body ->
  SimpleHexAtoi (marker ++ body)
  = safe_parse_positive_int uint32_max 16 body 0.
Proof.
  intros Hm Hb F.
  pose proof (consume_hex_prefix_digits marker body Hm Hb F) as C.
  destruct (exists_last Hb) as (body' & l & Ebody).
  assert (Hl : ascii_isspace l = false).
  { apply hex_digit_not_space. unfold all_hex_digits in F.
    rewrite Forall_forall in F. apply F. rewrite Ebody.
    apply in_or_app. right. now left. }
  assert (Hstart : exists c0 rest0,
             marker ++ body = c0 :: rest0
             /\ ascii_isspace c0 = false
             /\ Ascii.eqb c0 "-" = false /\ Ascii.eqb c0 "+" = false).
  { destruct Hm as [-> | [-> | ->]];
      [| exists "0"%char; eexists; repeat split; reflexivity ..].
    destruct body as [| b0 body0]; [congruence |].
    assert (Hb0 : kAsciiToInt b0 < 16) by (inversion F; assumption).
    exists b0, body0. repeat split.
    - now apply hex_digit_not_space.
    - now apply hex_digit_eqb.
    - now apply hex_digit_eqb. }
  destruct Hstart as (c0 & rest0 & Estart & Hsp & Hminus & Hplus).
  assert (T : trimmed (marker ++ body) = marker ++ body).
  { replace (marker ++ body) with ([] ++ (marker ++ body) ++ []) at 1
      by (cbn [app]; apply app_nil_r).
    apply (trimmed_core _ _ _ c0 l); try constructor; try assumption.
    - now rewrite Estart.
    - rewrite Ebody, app_assoc, rev_app_distr. reflexivity. }
  unfold SimpleHexAtoi, safe_parse_sign_and_base16.
  fold (trimmed (marker ++ body)). rewrite T, Estart. cbv zeta.
  rewrite Hminus, Hplus. cbn [orb]. rewrite <- Estart, C. reflexivity.
Qed.

(** A numeral whose value does not fit 32 bits is rejected: the value is
    not reduced modulo [2^32] and no digit is dropped. *)
Lemma SimpleHexAtoi_oversize text :
  oversize_numeral text -> SimpleHexAtoi text = None.
Proof.
  intros (marker & body & -> & Hm & Hb & F & Hbig).
  rewrite SimpleHexAtoi_marked by assumption.
  destruct (safe_parse_positive_int uint32_max 16 body 0) as [n |] eqn:P;
    [| reflexivity].
  apply (safe_parse_positive_int_Some uint32_max 16 ltac:(lia)
           uint32_max_base) in P; [| apply N.le_0_l].
  destruct P as (_ & -> & Hfit). apply uint32_max_bound in Hfit. lia.
Qed.

Section ReaderResults.
Variable table_name : str.
Variable p4rt_table : P4rtTable.

(** Reading all entries succeeds exactly when no key under the table
    prefix is malformed. *)
Theorem read_succeeds_iff_well_formed :
  (exists entries,
      GetAllAppDbPacketReplicationTableEntries table_name p4rt_table
      = Ok entries)
  <-> forall key,
        In key (keys (app_db p4rt_table)) ->
        StartsWith key (TablePrefix table_name) = true ->
        ~ malformed_key table_name p4rt_table key.
Proof.
  unfold GetAllAppDbPacketReplicationTableEntries. cbv zeta.
  destruct (ReadEntries_cases table_name p4rt_table
              (GetAllPacketReplicationTableEntryKeys table_name p4rt_table)
              [] (keys_prefixed table_name p4rt_table))
    as [[(bad & Hin & Hbad) (msg & E)] | (entries & E & F)]; rewrite E.
  - split.
    + intros (entries & Habs). discriminate Habs.
    + intros Hgood. exfalso.
      rewrite keys_filter in Hin. apply filter_In in Hin.
      apply (Hgood bad (proj1 Hin) (proj2 Hin)).
      now apply malformed_key_rejected.
  - split; [| intros _; now exists entries].
    intros _ key Hin Hpre Hbad.
    assert (Hin' : In key
              (GetAllPacketReplicationTableEntryKeys table_name p4rt_table))
      by (rewrite keys_filter; apply filter_In; now split).
    destruct (Forall2_In_l _ _ _ _ F Hin') as (entry & _ & Hentry).
    apply (entry_of_key_not_rejected table_name p4rt_table key entry Hentry).
    now apply malformed_key_rejected.
Qed.

(** When reading succeeds, the vector holds one entry per key under the
    table prefix, in the order in which the table lists its keys: the group
    id is the value of the key text after the prefix, and the replicas are
    the field names of the key, decoded in the order of the fields. *)
Theorem read_one_entry_per_key
    (entries : list IrPacketReplicationEngineEntry) :
  GetAllAppDbPacketReplicationTableEntries table_name p4rt_table = Ok entries ->
  Forall2 (entry_of_key table_name p4rt_table)
    (filter (fun key => StartsWith key (TablePrefix table_name))
       (keys (app_db p4rt_table)))
    entries
  /\ length entries
     = length (filter (fun key => StartsWith key (TablePrefix table_name))
                 (keys (app_db p4rt_table))).
Proof.
  unfold GetAllAppDbPacketReplicationTableEntries. cbv zeta. intros Hread.
  destruct (ReadEntries_cases table_name p4rt_table
              (GetAllPacketReplicationTableEntryKeys table_name p4rt_table)
              [] (keys_prefixed table_name p4rt_table))
    as [[_ (msg & E)] | (entries' & E & F)]; rewrite E in Hread.
  - discriminate Hread.
  - injection Hread as <-. rewrite keys_filter in F. split; [exact F |].
    symmetry. exact (Forall2_length F).
Qed.

(** A table without keys under the table prefix, an empty one or one
    holding other tables only, reads as the empty vector, whatever its
    fields are. *)
Theorem read_no_matching_key :
  (forall key,
      In key (keys (app_db p4rt_table)) ->
      StartsWith key (TablePrefix table_name) = false) ->
  GetAllAppDbPacketReplicationTableEntries table_name p4rt_table = Ok [].
Proof.
  intros Hnone. unfold GetAllAppDbPacketReplicationTableEntries. cbv zeta.
  rewrite keys_filter.
  replace (filter (fun key => StartsWith key (TablePrefix table_name))
             (keys (app_db p4rt_table)))
    with (@nil str); [reflexivity |].
  symmetry. induction (keys (app_db p4rt_table)) as [| key ks IH];
    [reflexivity |].
  cbn [filter]. rewrite (Hnone key (or_introl eq_refl)).
  apply IH. intros k Hk. apply Hnone. now right.
Qed.

(** No value is wrapped or truncated.  Every group id that is read is the
    exact value of the hexadecimal numeral after the prefix of its key, and
    every instance that of the numeral after the last [':'] of its field
    name; these values are below [2^32].  A key under the prefix with a
    numeral, as group id or as the instance of one of its fields, whose value
    does not fit 32 bits makes the whole read fail. *)
Theorem read_values_fit_32_bits :
  (forall entries,
      GetAllAppDbPacketReplicationTableEntries table_name p4rt_table
      = Ok entries ->
      Forall2
        (fun key entry =>
           let group := multicast_group_entry entry in
           hex_numeral (group_id_text table_name key) (multicast_group_id group)
           /\ multicast_group_id group < 2 ^ 32
           /\ Forall2
                (fun kfv r =>
                   instance r < 2 ^ 32
                   /\ exists value_split,
                        rfind ":" (fst kfv) = Some value_split
                        /\ hex_numeral
                             (substr_from (fst kfv) (value_split + 1))
                             (instance r))
                (get (app_db p4rt_table) key) (replicas group))
        (filter (fun key => StartsWith key (TablePrefix table_name))
           (keys (app_db p4rt_table)))
        entries)
  /\ (forall key,
        In key (keys (app_db p4rt_table)) ->
        StartsWith key (TablePrefix table_name) = true ->
        oversize_numeral (group_id_text table_name key)
        \/ (exists kfv value_split,
               In kfv (get (app_db p4rt_table) key)
               /\ rfind ":" (fst kfv) = Some value_split
               /\ oversize_numeral (substr_from (fst kfv) (value_split + 1))) ->
        exists msg,
          GetAllAppDbPacketReplicationTableEntries table_name p4rt_table
          = InvalidArgumentError msg).
Proof.
  unfold GetAllAppDbPacketReplicationTableEntries. cbv zeta.
  pose proof (ReadEntries_cases table_name p4rt_table
                (GetAllPacketReplicationTableEntryKeys table_name p4rt_table)
                [] (keys_prefixed table_name p4rt_table)) as Hcases.
  split.
  - intros entries Hread.
    destruct Hcases as [[_ (msg & E)] | (entries' & E & F)];
      rewrite E in Hread; [discriminate Hread |].
    injection Hread as <-. rewrite keys_filter in F.
    eapply Forall2_impl; [| exact F].
    intros key entry (_ & Hg & Hfields). cbv zeta.
    apply SimpleHexAtoi_hex_numeral in Hg. split; [exact Hg |]. split.
    + destruct Hg as (? & ? & ? & ? & ? & _ & _ & _ & _ & _ & _ & _ & _ & Hfit).
      now apply uint32_max_bound.
    + eapply Forall2_impl; [| exact Hfields].
      intros kfv r Hparse. unfold ParseReplica in Hparse.
      destruct (rfind ":" (fst kfv)) as [i |]; [| discriminate Hparse].
      destruct (SimpleHexAtoi (substr_from (fst kfv) (i + 1))) as [n |] eqn:P;
        [| discriminate Hparse].
      injection Hparse as <-. cbn [instance].
      apply SimpleHexAtoi_hex_numeral in P. split.
      * destruct P
          as (? & ? & ? & ? & ? & _ & _ & _ & _ & _ & _ & _ & _ & Hfit).
        now apply uint32_max_bound.
      * now exists i.
  - intros key Hin Hpre Hover.
    destruct Hcases as [[_ Herr] | (entries & _ & F)]; [exact Herr |].
    exfalso.
    assert (Hin' : In key
              (GetAllPacketReplicationTableEntryKeys table_name p4rt_table))
      by (rewrite keys_filter; apply filter_In; now split).
    destruct (Forall2_In_l _ _ _ _ F Hin') as (entry & _ & Hentry).
    apply (entry_of_key_not_rejected table_name p4rt_table key entry Hentry).
    destruct Hover as [Hover | (kfv & i & Hkfv & Hsplit & Hover)].
    + left. now apply SimpleHexAtoi_oversize.
    + right. exists kfv. split; [assumption |].
      unfold rejected_field. rewrite Hsplit.
      now apply SimpleHexAtoi_oversize.
Qed.
End ReaderResults.

(** The values of the fields are not read: two tables with the same keys
    and, at every key, the same field names in the same order are read
    alike. *)
Theorem read_ignores_field_values (table_name : str) (t t' : P4rtTable) :
  keys (app_db t) = keys (app_db t') ->
  (forall key, map fst (get (app_db t) key) = map fst (get (app_db t') key)) ->
  GetAllAppDbPacketReplicationTableEntries table_name t
  = GetAllAppDbPacketReplicationTableEntries table_name t'.
Proof.
  intros Hkeys Hnames. unfold GetAllAppDbPacketReplicationTableEntries.
  cbv zeta. rewrite !keys_filter, Hkeys.
  generalize (@nil IrPacketReplicationEngineEntry) as acc.
  induction (filter (fun key => StartsWith key (TablePrefix table_name))
               (keys (app_db t'))) as [| key ks IH];
    intros acc; cbn [ReadEntries]; [reflexivity |].
  destruct (StripTableName table_name key) as [text |]; cbn [bind];
    [| reflexivity].
  destruct (SimpleHexAtoi text); [| reflexivity].
  rewrite (BuildReplicas_names _ _ [] (Hnames key)).
  destruct (BuildReplicas (get (app_db t') key) []); cbn [bind];
    [apply IH | reflexivity].
Qed.

Lemma read_one_entry_per_key_witness :
  let table :=
    mk_table
      [(lit "REPLICATION_IP_MULTICAST_TABLE:b",
        [(lit "Ethernet4:0x1", lit "replica")]);
       (lit "OTHER_TABLE:1", [(lit "x", lit "y")]);
       (lit "REPLICATION_IP_MULTICAST_TABLE:a", [])] in
  let entries :=
    [mk_entry 11 [mk_replica "Ethernet4" 1]; mk_entry 10 []] in
  GetAllAppDbPacketReplicationTableEntries swss_table_name table = Ok entries
  /\ length entries = 2%nat.
Proof.
  intros table entries. split; [reflexivity |].
  exact (proj2 (read_one_entry_per_key swss_table_name table entries eq_refl)).
Defined.

Lemma read_no_matching_key_witness :
  GetAllAppDbPacketReplicationTableEntries swss_table_name
    (mk_table [(lit "OTHER_TABLE:zz", [(lit "no separator", lit "v")])])
  = Ok [].
Proof.
  apply read_no_matching_key. intros key [<- | []]. reflexivity.
Defined.

Lemma read_values_fit_32_bits_witness :
  let fits :=
    mk_table
      [(lit "REPLICATION_IP_MULTICAST_TABLE:ffffffff",
        [(lit "Ethernet4:0xFFFFFFFF", lit "replica")])] in
  let too_long :=
    mk_table
      [(lit "REPLICATION_IP_MULTICAST_TABLE:a",
        [(lit "Ethernet4:0x100000001", lit "replica")])] in
  (GetAllAppDbPacketReplicationTableEntries swss_table_name fits
   = Ok [mk_entry 4294967295 [mk_replica "Ethernet4" 4294967295]]
   /\ exists key,
        In key (keys (app_db fits))
        /\ hex_numeral (group_id_text swss_table_name key) 4294967295)
  /\ (exists msg,
         GetAllAppDbPacketReplicationTableEntries swss_table_name too_long
         = InvalidArgumentError msg)
  /\ GetAllAppDbPacketReplicationTableEntries swss_table_name too_long
     <> Ok [mk_entry 10 [mk_replica "Ethernet4" 1]].
Proof.
  intros fits too_long.
  pose proof (proj1 (read_values_fit_32_bits swss_table_name fits)
                [mk_entry 4294967295 [mk_replica "Ethernet4" 4294967295]]
                eq_refl) as Hfits.
  assert (Herr : exists msg,
             GetAllAppDbPacketReplicationTableEntries swss_table_name too_long
             = InvalidArgumentError msg).
  { apply (proj2 (read_values_fit_32_bits swss_table_name too_long)
             (lit "REPLICATION_IP_MULTICAST_TABLE:a")).
    - simpl. tauto.
    - reflexivity.
    - right. exists (lit "Ethernet4:0x100000001", lit "replica"), 9%nat.
      split; [simpl; tauto |]. split; [reflexivity |].
      exists (lit "0x"), (lit "100000001").
      split; [reflexivity |]. split; [auto |]. split; [discriminate |].
      split; [| discriminate].
      repeat constructor. }
  split; [split; [reflexivity |] |].
  - destruct (Forall2_In_r _ _ _ _ Hfits (or_introl eq_refl))
      as (key & Hkey & Hnum & _).
    exists key. split; [| exact Hnum].
    now apply filter_In in Hkey.
  - split; [exact Herr |].
    destruct Herr as (msg & E). rewrite E. discriminate.
Defined.

Lemma read_ignores_field_values_witness :
  GetAllAppDbPacketReplicationTableEntries swss_table_name
    (mk_table [(lit "REPLICATION_IP_MULTICAST_TABLE:a",
                [(lit "Ethernet0:0x0", lit "replica")])])
  = GetAllAppDbPacketReplicationTableEntries swss_table_name
      (mk_table [(lit "REPLICATION_IP_MULTICAST_TABLE:a",
                  [(lit "Ethernet0:0x0", lit "something else")])]).
Proof.
  apply read_ignores_field_values.
  - reflexivity.
  - intros key. cbn [mk_table app_db get find fst snd].
    destruct (list_eq_dec ascii_dec (lit "REPLICATION_IP_MULTICAST_TABLE:a") key);
      reflexivity.
Defined.

(** ** Writing, then reading *)

Lemma entry_eta (entry : IrPacketReplicationEngineEntry) :
  {| multicast_group_entry :=
       {| multicast_group_id := multicast_group_id (multicast_group_entry entry);
          replicas := replicas (multicast_group_entry entry) |} |}
  = entry.
Proof. now destruct entry as [[g rs]]. Qed.

Lemma StripTableName_prefix table_name body :
  StripTableName table_name (TablePrefix table_name ++ body) = Ok body.
Proof.
  rewrite StripTableName_Ok by apply StartsWith_app.
  unfold group_id_text. now rewrite substr_from_suffix.
Qed.

(** A table whose keys under the prefix are the keys written for a vector
    of entries, in order, and which holds the fields written for each of
    them, is read back as that vector, provided that the instances fit 32
    bits and that [absl::SimpleHexAtoi] reads the key body of each entry as
    its group id. *)
Theorem read_written_entries (table_name : str)
    (IrMulticastGroupEntryToAppDbKey : IrMulticastGroupEntry -> str)
    (p4rt_table : P4rtTable)
    (entries : list IrPacketReplicationEngineEntry) :
  (forall entry, In entry entries ->
     SimpleHexAtoi (IrMulticastGroupEntryToAppDbKey (multicast_group_entry entry))
     = Some (multicast_group_id (multicast_group_entry entry))) ->
  (forall entry r, In entry entries ->
     In r (replicas (multicast_group_entry entry)) -> instance r < 2 ^ 32) ->
  GetAllPacketReplicationTableEntryKeys table_name p4rt_table
  = map (GetRedisPacketReplicationTableKey table_name
           IrMulticastGroupEntryToAppDbKey) entries ->
  (forall entry, In entry entries ->
     holds_entry table_name IrMulticastGroupEntryToAppDbKey p4rt_table entry) ->
  GetAllAppDbPacketReplicationTableEntries table_name p4rt_table = Ok entries.
Proof.
  intros Hid Hinst Hkeys Hholds.
  unfold GetAllAppDbPacketReplicationTableEntries. cbv zeta. rewrite Hkeys.
  clear Hkeys. rewrite <- (app_nil_l entries) at 2.
  generalize (@nil IrPacketReplicationEngineEntry) as acc.
  induction entries as [| entry entries IH]; intros acc; cbn [map ReadEntries].
  - now rewrite app_nil_r.
  - unfold GetRedisPacketReplicationTableKey at 1.
    rewrite StripTableName_prefix. cbn [bind].
    rewrite (Hid entry (or_introl eq_refl)).
    destruct (Hholds entry (or_introl eq_refl)) as (key_value & Hkv & Hget).
    rewrite CreateEntryForInsert_fields in Hkv. cbn [snd app] in Hkv.
    injection Hkv as <-. cbn [kfvKey kfvFieldsValues] in Hget.
    rewrite Hget, BuildReplicas_written
      by (intros r Hr; apply (Hinst entry r); [now left | assumption]).
    cbn [bind app]. rewrite entry_eta.
    rewrite IH.
    + now rewrite <- app_assoc.
    + intros e He. apply Hid. now right.
    + intros e r He. apply Hinst. now right.
    + intros e He. apply Hholds. now right.
Qed.

Lemma read_written_entries_witness :
  let key_fn := fun e => Hex (multicast_group_id e) in
  let entries :=
    [mk_entry 11 [mk_replica "Ethernet4" 1; mk_replica "Ethernet0:1" 255];
     mk_entry 10 []] in
  let table :=
    mk_table
      [(lit "REPLICATION_IP_MULTICAST_TABLE:b",
        [(lit "Ethernet4:0x1", lit "replica");
         (lit "Ethernet0:1:0xff", lit "replica")]);
       (lit "OTHER_TABLE:1", []);
       (lit "REPLICATION_IP_MULTICAST_TABLE:a", [])] in
  GetAllAppDbPacketReplicationTableEntries swss_table_name table = Ok entries.
Proof.
  intros key_fn entries table.
  apply (read_written_entries swss_table_name key_fn table entries).
  - intros entry [<- | [<- | []]]; reflexivity.
  - intros entry r [<- | [<- | []]]; [intros [<- | [<- | []]] | intros []];
      reflexivity.
  - reflexivity.
  - intros entry [<- | [<- | []]]; eexists; split; reflexivity.
Defined.

(** ** The error that is returned *)

Section ReaderErrors.
Variable table_name : str.
Variable p4rt_table : P4rtTable.
Variables good rest : list str.
Variable key : str.

Hypothesis keys_split :
  filter (fun key => StartsWith key (TablePrefix table_name))
    (keys (app_db p4rt_table))
  = good ++ key :: rest.
Hypothesis good_keys :
  forall k, In k good -> ~ malformed_key table_name p4rt_table k.

Lemma split_keys_prefixed :
  Forall (fun k => StartsWith k (TablePrefix table_name) = true)
    (good ++ key :: rest).
Proof.
  rewrite <- keys_split. apply Forall_forall. intros k Hk.
  now apply filter_In in Hk.
Qed.

Lemma good_keys_read :
  exists entries, ReadEntries table_name p4rt_table good [] = Ok entries.
Proof.
  pose proof split_keys_prefixed as Hpre. apply Forall_app in Hpre.
  destruct (ReadEntries_cases table_name p4rt_table good [] (proj1 Hpre))
    as [[(bad & Hin & Hbad) _] | (entries & E & _)].
  - exfalso. apply (good_keys bad Hin). now apply malformed_key_rejected.
  - now exists entries.
Qed.

Lemma key_prefixed : StartsWith key (TablePrefix table_name) = true.
Proof.
  pose proof split_keys_prefixed as Hpre. rewrite Forall_forall in Hpre.
  apply Hpre, in_or_app. right. now left.
Qed.

(** The keys are read in the order of the table, up to the first malformed
    one.  If its text after the prefix is not a hexadecimal numeral of a
    32-bit value, the status returned says so and names the key, whatever
    follows it in the table. *)
Theorem read_error_names_key :
  (forall n, ~ hex_numeral (group_id_text table_name key) n) ->
  GetAllAppDbPacketReplicationTableEntries table_name p4rt_table
  = InvalidArgumentError
      (lit "Failed to parse multicast_group_id from App DB packet replication entry key '"
       ++ key).
Proof.
  intros Hbad. apply SimpleHexAtoi_None in Hbad.
  unfold GetAllAppDbPacketReplicationTableEntries. cbv zeta.
  rewrite keys_filter, keys_split.
  destruct good_keys_read as (entries & E).
  rewrite (ReadEntries_app _ _ _ _ _ _ E). cbn [ReadEntries].
  rewrite (StripTableName_Ok table_name key key_prefixed). cbn [bind].
  rewrite Hbad. reflexivity.
Qed.

(** If the first malformed key has a group id, the fields of the key are
    decoded in order up to the first malformed field name, and the status
    returned quotes that field name when it has no [':'], and else its text
    after the last [':']. *)
Theorem read_error_names_field (g : N) (good_fields rest_fields : list (str * str))
    (kfv : str * str) :
  hex_numeral (group_id_text table_name key) g ->
  get (app_db p4rt_table) key = good_fields ++ kfv :: rest_fields ->
  (forall x, In x good_fields -> ~ malformed_field (fst x)) ->
  malformed_field (fst kfv) ->
  GetAllAppDbPacketReplicationTableEntries table_name p4rt_table
  = match rfind ":" (fst kfv) with
    | None =>
        InvalidArgumentError
          (lit "Unexpected multicast port/instance format '" ++ fst kfv
           ++ lit "' for APP DB packet replication")
    | Some value_split =>
        InvalidArgumentError
          (lit "Unexpected replica instance value '"
           ++ substr_from (fst kfv) (value_split + 1)
           ++ lit "' for APP DB packet replication")
    end.
Proof.
  intros Hg Hfields Hgood Hbad.
  apply hex_numeral_SimpleHexAtoi in Hg.
  unfold GetAllAppDbPacketReplicationTableEntries. cbv zeta.
  rewrite keys_filter, keys_split.
  destruct good_keys_read as (entries & E).
  rewrite (ReadEntries_app _ _ _ _ _ _ E). cbn [ReadEntries].
  rewrite (StripTableName_Ok table_name key key_prefixed). cbn [bind].
  rewrite Hg, Hfields.
  assert (Hread : exists rs, BuildReplicas good_fields [] = Ok rs).
  { destruct (BuildReplicas_cases good_fields [])
      as [[(bad & Hin & Hrej) _] | (rs & Ers & _)].
    - exfalso. apply (Hgood bad Hin). now apply malformed_field_rejected.
    - now exists rs. }
  destruct Hread as (rs & Ers).
  rewrite (BuildReplicas_app _ _ _ _ Ers). cbn [BuildReplicas].
  unfold ParseReplica. unfold malformed_field in Hbad.
  destruct (rfind ":" (fst kfv)) as [i |]; [| reflexivity].
  apply SimpleHexAtoi_None in Hbad. rewrite Hbad. reflexivity.
Qed.
End ReaderErrors.

Lemma read_error_names_key_witness :
  GetAllAppDbPacketReplicationTableEntries swss_table_name
    (mk_table
       [(lit "REPLICATION_IP_MULTICAST_TABLE:a", []);
        (lit "REPLICATION_IP_MULTICAST_TABLE:xyz", []);
        (lit "REPLICATION_IP_MULTICAST_TABLE:", [])])
  = InvalidArgumentError
      (lit "Failed to parse multicast_group_id from App DB packet replication entry key 'REPLICATION_IP_MULTICAST_TABLE:xyz").
Proof.
  apply (read_error_names_key swss_table_name _
           [lit "REPLICATION_IP_MULTICAST_TABLE:a"]
           [lit "REPLICATION_IP_MULTICAST_TABLE:"]
           (lit "REPLICATION_IP_MULTICAST_TABLE:xyz")).
  - reflexivity.
  - intros k [<- | []] Hbad. apply malformed_key_rejected in Hbad.
    destruct Hbad as [Hbad | (kfv & [] & _)]. discriminate Hbad.
  - apply SimpleHexAtoi_None. reflexivity.
Defined.

Lemma read_error_names_field_witness :
  GetAllAppDbPacketReplicationTableEntries swss_table_name
    (mk_table
       [(lit "REPLICATION_IP_MULTICAST_TABLE:a",
         [(lit "Ethernet0:0x0", lit "replica");
          (lit "Ethernet4:0x1g", lit "replica");
          (lit "Ethernet8", lit "replica")])])
  = InvalidArgumentError
      (lit "Unexpected replica instance value '0x1g' for APP DB packet replication").
Proof.
  apply (read_error_names_field swss_table_name _ []
           [] (lit "REPLICATION_IP_MULTICAST_TABLE:a")) with
    (g := 10)
    (good_fields := [(lit "Ethernet0:0x0", lit "replica")])
    (rest_fields := [(lit "Ethernet8", lit "replica")])
    (kfv := (lit "Ethernet4:0x1g", lit "replica")).
  - reflexivity.
  - intros k [].
  - apply SimpleHexAtoi_iff. reflexivity.
  - reflexivity.
  - intros x [<- | []] Hbad. apply malformed_field_rejected in Hbad.
    discriminate Hbad.
  - apply malformed_field_rejected. reflexivity.
Defined.

(** ** The comparison: agreement *)

Lemma str_In_dec (d : str) (s : list str) : In d s \/ ~ In d s.
Proof. destruct (in_dec (list_eq_dec ascii_dec) d s); auto. Qed.

Lemma same_replicas_strings e e' :
  same_replicas e e'
  <-> forall d, In d (replica_strings e) <-> In d (replica_strings e').
Proof.
  unfold same_replicas. split.
  - intros H d. split; intros Hd; apply replica_strings_inv in Hd;
      destruct Hd as (r & -> & Hr); apply replica_strings_In; now apply H.
  - intros H r. rewrite <- !replica_strings_In. apply H.
Qed.

Lemma entity_failures_nil ea eb :
  entity_failures ea eb = [] <-> same_replicas ea eb.
Proof.
  rewrite same_replicas_strings. split.
  - intros E d.
    assert (Hno : forall f, ~ In f (entity_failures ea eb))
      by (rewrite E; intros f []).
    split; intros Hd.
    + destruct (str_In_dec d (replica_strings eb)) as [| Hnot];
        [assumption |].
      exfalso. apply (Hno (CacheMissingReplica d (group_id_of ea))).
      apply entity_failures_In. left. now exists d.
    + destruct (str_In_dec d (replica_strings ea)) as [| Hnot];
        [assumption |].
      exfalso. apply (Hno (AppDbMissingReplica d (group_id_of ea))).
      apply entity_failures_In. right. now exists d.
  - intros H. destruct (entity_failures ea eb) as [| f fs] eqn:E;
      [reflexivity |].
    exfalso.
    assert (Hf : In f (entity_failures ea eb)) by (rewrite E; now left).
    apply entity_failures_In in Hf.
    destruct Hf as [(d & _ & Hin & Hnot) | (d & _ & Hin & Hnot)];
      apply Hnot, H, Hin.
Qed.

(** [ComparePacketReplicationEntities] keeps the failures it is given and
    adds replica messages that carry the group id of the App DB entity; it
    adds none exactly when the two entities have the same replicas, in
    whatever order and however often each is listed.  The group id of the
    cache entity is not looked at. *)
Theorem entities_compared_as_sets (entity_app_db entity_cache : IrEntity)
    (failures : list str) :
  (exists added,
      ComparePacketReplicationEntities entity_app_db entity_cache failures
      = failures ++ added
      /\ forall s, In s added ->
           exists d,
             s = cache_missing_replica d (group_id_of entity_app_db)
             \/ s = app_db_missing_replica d (group_id_of entity_app_db))
  /\ (ComparePacketReplicationEntities entity_app_db entity_cache failures
      = failures
      <-> same_replicas entity_app_db entity_cache).
Proof.
  rewrite ComparePacketReplicationEntities_failures. split.
  - exists (map render (entity_failures entity_app_db entity_cache)).
    split; [reflexivity |]. intros s Hs. apply in_map_iff in Hs.
    destruct Hs as (f & <- & Hf). apply entity_failures_In in Hf.
    destruct Hf as [(d & -> & _) | (d & -> & _)]; exists d; cbn [render]; auto.
  - rewrite <- entity_failures_nil. split.
    + intros E. rewrite <- (app_nil_r failures) in E at 2.
      apply app_inv_head in E.
      now destruct (entity_failures entity_app_db entity_cache).
    + intros ->. apply app_nil_r.
Qed.

Lemma reported_none_iff_consistent entries_app_db entries_cache :
  (forall f, ~ reported entries_app_db entries_cache f)
  <-> consistent entries_app_db entries_cache.
Proof.
  unfold consistent. split.
  - intros Hno g.
    pose proof (Hno (CacheMissingGroup g)) as H1.
    pose proof (Hno (AppDbMissingGroup g)) as H2.
    cbn [reported] in H1, H2. cbv zeta in H1, H2.
    rewrite !last_with_group_find in H1, H2.
    destruct (last_with_group g entries_app_db) as [ea |] eqn:Ea,
      (last_with_group g entries_cache) as [eb |] eqn:Eb.
    + apply entity_failures_nil.
      destruct (entity_failures ea eb) as [| f fs] eqn:E; [reflexivity |].
      exfalso.
      assert (Hf : In f (entity_failures ea eb)) by (rewrite E; now left).
      apply entity_failures_In in Hf.
      destruct Hf as [(d & _ & Hd) | (d & _ & Hd)].
      * apply (Hno (CacheMissingReplica d g)). cbn [reported]. cbv zeta.
        rewrite !last_with_group_find. now exists ea, eb.
      * apply (Hno (AppDbMissingReplica d g)). cbn [reported]. cbv zeta.
        rewrite !last_with_group_find. now exists ea, eb.
    + apply H1. split; [discriminate | reflexivity].
    + apply H2. split; [discriminate | reflexivity].
    + exact I.
  - intros Hc f. specialize (Hc (failure_group f)).
    destruct f as [g | d g | d g | g]; cbn [reported failure_group] in *;
      cbv zeta; rewrite !last_with_group_find;
      destruct (last_with_group g entries_app_db) as [ea |],
        (last_with_group g entries_cache) as [eb |];
      try contradiction;
      try (intros [H1 H2]; congruence);
      try (intros (x & y & H1 & H2 & _); discriminate).
    + intros (x & y & [= <-] & [= <-] & Hin & Hnot).
      pose proof (proj1 (same_replicas_strings _ _) Hc) as Hs.
      now apply Hnot, Hs.
    + intros (x & y & [= <-] & [= <-] & Hin & Hnot).
      pose proof (proj1 (same_replicas_strings _ _) Hc) as Hs.
      now apply Hnot, Hs.
Qed.

(** The comparison returns no failure exactly when the two vectors have
    the same group ids and, for each, entities with the same replicas; in
    particular a vector compared with itself gives no failure. *)
Theorem compare_empty_iff_consistent
    (entries_app_db entries_cache : list IrEntity) :
  (ComparePacketReplicationTableEntries entries_app_db entries_cache = []
   <-> consistent entries_app_db entries_cache)
  /\ ComparePacketReplicationTableEntries entries_app_db entries_app_db = [].
Proof.
  assert (Hiff : forall a b,
             ComparePacketReplicationTableEntries a b = []
             <-> consistent a b).
  { intros a b. rewrite ComparePacketReplicationTableEntries_failures,
      <- reported_none_iff_consistent.
    split.
    - intros E f Hf. apply table_failures_reported in Hf.
      destruct (table_failures a b); [destruct Hf | discriminate E].
    - intros Hno. destruct (table_failures a b) as [| f fs] eqn:E;
        [reflexivity |].
      exfalso. apply (Hno f), table_failures_reported. rewrite E. now left. }
  split; [apply Hiff |].
  apply Hiff. intros g. destruct (last_with_group g entries_app_db);
    [intros r; reflexivity | exact I].
Qed.

(** ** The comparison: order and repetitions in the vectors *)

Section IncreasingLists.
Context {K : Type} (less : K -> K -> bool) `{!StrictTotalOrder less}.

(** An ordered set is determined by its elements. *)
Lemma increasing_ext (s1 s2 : list K) :
  increasing less s1 -> increasing less s2 ->
  (forall x, In x s1 <-> In x s2) -> s1 = s2.
Proof.
  revert s2. induction s1 as [| a s1 IH]; intros [| b s2] H1 H2 E.
  - reflexivity.
  - destruct (proj2 (E b) (or_introl eq_refl)).
  - destruct (proj1 (E a) (or_introl eq_refl)).
  - destruct (increasing_inv less _ _ H1) as [H1' Hall1].
    destruct (increasing_inv less _ _ H2) as [H2' Hall2].
    assert (Hab : a = b).
    { destruct (proj1 (E a) (or_introl eq_refl)) as [Hba | Ha]; [now symmetry |].
      destruct (proj2 (E b) (or_introl eq_refl)) as [Hab | Hb]; [assumption |].
      pose proof (Hall2 a Ha) as L1. pose proof (Hall1 b Hb) as L2.
      pose proof (trans_less less _ _ _ L1 L2) as C.
      now rewrite (irrefl_less less) in C. }
    subst b. f_equal. apply IH; try assumption.
    intros x. split; intros Hx.
    + destruct (proj1 (E x) (or_intror Hx)) as [<- | Hx']; [| assumption].
      specialize (Hall1 a Hx). now rewrite (irrefl_less less) in Hall1.
    + destruct (proj2 (E x) (or_intror Hx)) as [<- | Hx']; [| assumption].
      specialize (Hall2 a Hx). now rewrite (irrefl_less less) in Hall2.
Qed.
End IncreasingLists.

Lemma replica_strings_same e e' :
  same_replicas e e' -> replica_strings e = replica_strings e'.
Proof.
  intros H. apply (increasing_ext str_less);
    try apply replica_strings_increasing.
  now apply same_replicas_strings.
Qed.

Lemma GroupMap_keys_In g entries :
  In g (map fst (GroupMap entries)) <-> last_with_group g entries <> None.
Proof.
  rewrite <- last_with_group_find.
  pose proof (map_find_None N.ltb g (GroupMap entries)) as H.
  destruct (map_find N.ltb g (GroupMap entries)) as [e |].
  - split; [discriminate |]. intros _.
    destruct (in_dec N.eq_dec g (map fst (GroupMap entries))) as [| Hnot];
      [assumption |].
    apply H in Hnot. discriminate Hnot.
  - split; [| congruence]. intros Hin. now apply H in Hin.
Qed.

Lemma consistent_keys entries entries' :
  consistent entries entries' ->
  map fst (GroupMap entries) = map fst (GroupMap entries').
Proof.
  intros Hc. apply (increasing_ext N.ltb); try apply GroupMap_increasing.
  intros g. rewrite !GroupMap_keys_In. specialize (Hc g).
  destruct (last_with_group g entries), (last_with_group g entries');
    try contradiction; split; congruence.
Qed.

Lemma flat_map_same_keys {A B : Type} (F F' : N * A -> list B)
    (l l' : list (N * A)) :
  map fst l = map fst l' ->
  (forall k e e', In (k, e) l -> In (k, e') l' -> F (k, e) = F' (k, e')) ->
  flat_map F l = flat_map F' l'.
Proof.
  revert l'. induction l as [| [k e] l IH]; intros [| [k' e'] l'] Hk Hf;
    try discriminate; [reflexivity |].
  cbn [map fst] in Hk. injection Hk as <- Hk. cbn [flat_map]. f_equal.
  - apply Hf; now left.
  - apply IH; [assumption |].
    intros k0 x x' Hx Hx'. apply Hf; now right.
Qed.

Lemma entity_failures_same ea ea' eb eb' :
  group_id_of ea = group_id_of ea' ->
  same_replicas ea ea' -> same_replicas eb eb' ->
  entity_failures ea eb = entity_failures ea' eb'.
Proof.
  intros Hg Ha Hb. unfold entity_failures. cbv zeta.
  now rewrite Hg, (replica_strings_same _ _ Ha), (replica_strings_same _ _ Hb).
Qed.

Lemma find_unique {A : Type} (f : A -> N) (g : N) (l : list A) (e : A) :
  NoDup (map f l) -> In e l -> f e = g ->
  find (fun x => f x =? g) l = Some e.
Proof.
  induction l as [| a l IH]; intros Hnd Hin Hg; [destruct Hin |].
  cbn [map] in Hnd. apply NoDup_cons_iff in Hnd. destruct Hnd as [Hnot Hnd].
  cbn [find]. destruct Hin as [-> | Hin].
  - apply N.eqb_eq in Hg. now rewrite Hg.
  - destruct (N.eqb_spec (f a) g) as [Ha | _]; [| now apply IH].
    exfalso. apply Hnot. rewrite Ha, <- Hg. now apply in_map.
Qed.

(** In a vector without a repeated group id, the entity of a group does
    not depend on the order of the vector. *)
Lemma last_with_group_Permutation g entries entries' :
  NoDup (map group_id_of entries) -> Permutation entries entries' ->
  last_with_group g entries = last_with_group g entries'.
Proof.
  intros Hnd Hperm. unfold last_with_group.
  assert (Hnd' : NoDup (map group_id_of (rev entries'))).
  { apply (Permutation_NoDup (l := map group_id_of entries)); [| assumption].
    apply Permutation_map.
    apply Permutation_trans with entries'; [assumption |].
    apply Permutation_rev. }
  destruct (find (fun e => group_id_of e =? g) (rev entries)) as [e |] eqn:F.
  - apply find_some in F. destruct F as [Hin Hg]. apply N.eqb_eq in Hg.
    symmetry. apply find_unique; try assumption.
    apply (proj1 (in_rev _ _)). apply (Permutation_in _ Hperm).
    now apply (proj2 (in_rev _ _)).
  - destruct (find (fun e => group_id_of e =? g) (rev entries')) as [e' |] eqn:F';
      [| reflexivity].
    apply find_some in F'. destruct F' as [Hin Hg].
    apply (proj2 (in_rev _ _)) in Hin.
    apply (Permutation_in _ (Permutation_sym Hperm)) in Hin.
    apply (proj1 (in_rev _ _)) in Hin.
    rewrite (find_none _ _ F e' Hin) in Hg. discriminate Hg.
Qed.

Lemma Permutation_consistent entries entries' :
  NoDup (map group_id_of entries) -> Permutation entries entries' ->
  consistent entries entries'.
Proof.
  intros Hnd Hperm g. rewrite <- (last_with_group_Permutation g _ _ Hnd Hperm).
  destruct (last_with_group g entries); [intros r; reflexivity | exact I].
Qed.

(** The vector returned depends on each input vector only through its
    group ids and, for each id, the set of replicas of the last entity with
    that id: two pairs of vectors that agree on these give the same vector.
    So the order of the replicas of an entity and replicas listed more than
    once change nothing, and neither does the order of the entities of a
    vector in which no group id occurs twice. *)
Theorem compare_depends_on_sets_only
    (entries_app_db entries_app_db' entries_cache entries_cache'
       : list IrEntity) :
  (consistent entries_app_db entries_app_db' ->
   consistent entries_cache entries_cache' ->
   ComparePacketReplicationTableEntries entries_app_db entries_cache
   = ComparePacketReplicationTableEntries entries_app_db' entries_cache')
  /\ (NoDup (map group_id_of entries_app_db) ->
      NoDup (map group_id_of entries_cache) ->
      Permutation entries_app_db entries_app_db' ->
      Permutation entries_cache entries_cache' ->
      ComparePacketReplicationTableEntries entries_app_db entries_cache
      = ComparePacketReplicationTableEntries entries_app_db' entries_cache').
Proof.
  assert (Hsets :
            consistent entries_app_db entries_app_db' ->
            consistent entries_cache entries_cache' ->
            ComparePacketReplicationTableEntries entries_app_db entries_cache
            = ComparePacketReplicationTableEntries
                entries_app_db' entries_cache').
  { intros Ha Hb. rewrite !ComparePacketReplicationTableEntries_failures.
    f_equal. unfold table_failures.
    assert (Hfind : forall (x x' : list IrEntity) k e e',
               consistent x x' ->
               In (k, e) (GroupMap x) -> In (k, e') (GroupMap x') ->
               group_id_of e = group_id_of e' /\ same_replicas e e').
    { intros x x' k e e' Hc He He'.
      pose proof (proj1 (GroupMap_In _ _ _ He)) as Hg.
      pose proof (proj1 (GroupMap_In _ _ _ He')) as Hg'.
      apply GroupMap_find_In in He, He'.
      rewrite last_with_group_find in He, He'.
      specialize (Hc k). rewrite He, He' in Hc.
      split; [congruence | assumption]. }
    f_equal.
    - apply flat_map_same_keys; [now apply consistent_keys |].
      intros k e e' He He'.
      destruct (Hfind _ _ k e e' Ha He He') as [Hg Hs].
      unfold app_db_side_failures. cbn [fst snd].
      rewrite !last_with_group_find. specialize (Hb k).
      destruct (last_with_group k entries_cache),
        (last_with_group k entries_cache'); try contradiction;
        [now apply entity_failures_same | reflexivity].
    - apply flat_map_same_keys; [now apply consistent_keys |].
      intros k e e' _ _. unfold cache_side_failures. cbn [fst].
      rewrite !last_with_group_find. specialize (Ha k).
      destruct (last_with_group k entries_app_db),
        (last_with_group k entries_app_db'); try contradiction; reflexivity. }
  split; [exact Hsets |].
  intros Hnda Hndb Hpa Hpb.
  apply Hsets; now apply Permutation_consistent.
Qed.

Lemma compare_depends_on_sets_only_witness :
  let a := mk_replica "Ethernet0" 0 in
  let b := mk_replica "Ethernet4" 1 in
  let cache := [mk_entity 7 [a]] in
  ComparePacketReplicationTableEntries
    [mk_entity 10 [a; b]; mk_entity 7 []] cache
  = ComparePacketReplicationTableEntries
      [mk_entity 7 []; mk_entity 10 [b; a; b]] cache
  /\ ComparePacketReplicationTableEntries
       [mk_entity 10 [a; b]; mk_entity 7 []] cache
     = ComparePacketReplicationTableEntries
         [mk_entity 7 []; mk_entity 10 [a; b]] cache.
Proof.
  intros a b cache. split.
  - apply (proj1 (compare_depends_on_sets_only _ _ _ _)).
    + intros g. unfold last_with_group. cbn [rev app find group_id_of
        packet_replication_engine_entry multicast_group_entry
        multicast_group_id mk_entity mk_entry].
      destruct (N.eqb_spec 7 g) as [<- | H7].
      * intros r. cbn. tauto.
      * destruct (N.eqb_spec 10 g) as [<- | H10].
        -- intros r. cbn. tauto.
        -- exact I.
    + intros g. destruct (last_with_group g cache);
        [intros r; reflexivity | exact I].
  - apply (proj2 (compare_depends_on_sets_only _ _ _ _)).
    + repeat constructor; simpl; intuition discriminate.
    + repeat constructor; simpl; intuition discriminate.
    + apply perm_swap.
    + apply Permutation_refl.
Defined.

(** ** The comparison: the order of the failures *)

Lemma sorted_block_then c (l1 l2 : list N) :
  (forall x, In x l1 -> x = c) ->
  StronglySorted N.le l2 -> (forall y, In y l2 -> c <= y) ->
  StronglySorted N.le (l1 ++ l2).
Proof.
  intros Hc Hs Hle. induction l1 as [| x l1 IH]; cbn [app].
  - assumption.
  - constructor.
    + apply IH. intros y Hy. apply Hc. now right.
    + apply Forall_forall. intros y Hy.
      rewrite (Hc x (or_introl eq_refl)). apply in_app_or in Hy.
      destruct Hy as [Hy | Hy].
      * rewrite (Hc y (or_intror Hy)). apply N.le_refl.
      * now apply Hle.
Qed.

Lemma flat_map_groups_ascending {A : Type} (F : N * A -> list Failure)
    (l : list (N * A)) :
  increasing N.ltb (map fst l) ->
  (forall a f, In a l -> In f (F a) -> failure_group f = fst a) ->
  StronglySorted N.le (map failure_group (flat_map F l))
  /\ forall f, In f (flat_map F l) -> In (failure_group f) (map fst l).
Proof.
  induction l as [| a l IH]; intros Hinc Hkey.
  - split; [constructor | intros f []].
  - cbn [map] in Hinc. destruct (increasing_inv N.ltb _ _ Hinc) as [Hinc' Hall].
    destruct IH as [IHs IHin]; [assumption | |].
    { intros b f Hb. apply Hkey. now right. }
    cbn [flat_map]. rewrite map_app. split.
    + apply (sorted_block_then (fst a)).
      * intros x Hx. apply in_map_iff in Hx. destruct Hx as (f & <- & Hf).
        apply (Hkey a f); [now left | assumption].
      * assumption.
      * intros y Hy. apply in_map_iff in Hy. destruct Hy as (f & <- & Hf).
        apply IHin in Hf. apply Hall, N.ltb_lt in Hf. lia.
    + intros f Hf. apply in_app_or in Hf. destruct Hf as [Hf | Hf].
      * left. symmetry. apply (Hkey a f); [now left | assumption].
      * right. now apply IHin.
Qed.

(** The failures are returned in two runs.  The first follows the group
    ids of the App DB vector in ascending order and holds, for each of them,
    either the message that the cache misses the group or the replica
    messages of the group.  The second holds only messages that the App DB
    misses a group.  Within each run the group ids never decrease. *)
Theorem compare_ascending_group_ids
    (entries_app_db entries_cache : list IrEntity) :
  exists first_run second_run,
    ComparePacketReplicationTableEntries entries_app_db entries_cache
    = map render first_run ++ map render second_run
    /\ StronglySorted N.le (map failure_group first_run)
    /\ StronglySorted N.le (map failure_group second_run)
    /\ (forall f, In f first_run ->
          last_with_group (failure_group f) entries_app_db <> None
          /\ f <> AppDbMissingGroup (failure_group f))
    /\ (forall f, In f second_run -> f = AppDbMissingGroup (failure_group f)).
Proof.
  exists (flat_map (app_db_side_failures (GroupMap entries_cache))
            (GroupMap entries_app_db)),
    (flat_map (cache_side_failures (GroupMap entries_app_db))
       (GroupMap entries_cache)).
  assert (Hkey1 : forall a f,
             In a (GroupMap entries_app_db) ->
             In f (app_db_side_failures (GroupMap entries_cache) a) ->
             failure_group f = fst a
             /\ f <> AppDbMissingGroup (failure_group f)).
  { intros [k e] f Hin Hf. apply GroupMap_In in Hin. destruct Hin as [Hg _].
    unfold app_db_side_failures in Hf. cbn [fst snd] in *.
    destruct (map_find N.ltb k (GroupMap entries_cache)) as [eb |].
    - apply entity_failures_In in Hf.
      destruct Hf as [(d & -> & _) | (d & -> & _)];
        (split; [exact Hg | discriminate]).
    - destruct Hf as [<- | []]. split; [reflexivity | discriminate]. }
  assert (Hkey2 : forall a f,
             In a (GroupMap entries_cache) ->
             In f (cache_side_failures (GroupMap entries_app_db) a) ->
             failure_group f = fst a
             /\ f = AppDbMissingGroup (failure_group f)).
  { intros [k e] f _ Hf. unfold cache_side_failures in Hf. cbn [fst] in *.
    destruct (map_find N.ltb k (GroupMap entries_app_db)); [destruct Hf |].
    destruct Hf as [<- | []]. now split. }
  destruct (flat_map_groups_ascending
              (app_db_side_failures (GroupMap entries_cache))
              (GroupMap entries_app_db) (GroupMap_increasing _)
              (fun a f Ha Hf => proj1 (Hkey1 a f Ha Hf))) as [S1 In1].
  destruct (flat_map_groups_ascending
              (cache_side_failures (GroupMap entries_app_db))
              (GroupMap entries_cache) (GroupMap_increasing _)
              (fun a f Ha Hf => proj1 (Hkey2 a f Ha Hf))) as [S2 _].
  split; [| split; [exact S1 | split; [exact S2 | split]]].
  - rewrite ComparePacketReplicationTableEntries_failures.
    unfold table_failures. apply map_app.
  - intros f Hf. split.
    + apply GroupMap_keys_In. now apply In1.
    + apply in_flat_map in Hf. destruct Hf as (a & Ha & Hf).
      exact (proj2 (Hkey1 a f Ha Hf)).
  - intros f Hf. apply in_flat_map in Hf. destruct Hf as (a & Ha & Hf).
    exact (proj2 (Hkey2 a f Ha Hf)).
Qed.

(** No message occurs twice in the vector returned, and the messages in it
    are exactly those of the failures to report: a group of one vector that
    the other lacks, or a replica string of a group of both vectors that
    only one of the two entities has. *)
Theorem compare_exact_report (entries_app_db entries_cache : list IrEntity) :
  NoDup (ComparePacketReplicationTableEntries entries_app_db entries_cache)
  /\ forall s,
       In s (ComparePacketReplicationTableEntries entries_app_db entries_cache)
       <-> exists f, s = render f /\ reported entries_app_db entries_cache f.
Proof.
  split.
  - rewrite ComparePacketReplicationTableEntries_failures.
    apply NoDup_map_NoDup_ForallPairs.
    + intros f f' _ _. apply render_inj.
    + apply table_failures_NoDup.
  - intros s. rewrite ComparePacketReplicationTableEntries_failures, in_map_iff.
    split.
    + intros (f & <- & Hf). exists f. split; [reflexivity |].
      now apply table_failures_reported.
    + intros (f & -> & Hf). exists f. split; [reflexivity |].
      now apply table_failures_reported.
Qed.
